(** * Marvel dashboard: the filter-and-aggregate pipeline of [app.py]

    A shallow embedding of the data preparation (lines 19-27), of
    [filter_data] (lines 107-113) and of the data part of
    [update_dashboard] (lines 134-249).

    Modelling choices.
    - A DataFrame of movies is the list of its rows, in index order.
    - A monetary cell is [option Q]: [None] is the NaN that
      [pd.to_numeric(errors="coerce")] leaves behind.  Arithmetic on the
      finite values is exact: a sum or a quotient below is the number the
      cells define, which pandas computes up to float64 rounding.  Where a
      statement turns on that rounding, the float64 computation is written
      out beside it ([series_sum_f64], [groupby_sum_f64]).
    - [Year] is [option Z] ([None] for the NaN year of a NaT date).
    - [ROI] is a quotient, so it lives in [fnum]: NaN, the two infinities
      or a finite rational.
    - [Distributor] and [Title] are strings: line 34 sorts the distinct
      distributors, which Python only does for values of one type.
    - DataFrames are objects: the model keeps them in a heap, the global
      [df] at address [df_ref], and every pandas call that returns a new
      frame allocates one.  Python exceptions are the [Raise] results.
    - [filter_data] takes the arguments the page's controls send;
      [filter_data_py] is the same code on arguments of another type. *)

From Stdlib Require Import String.
From Stdlib Require Import List ZArith QArith Bool Lia Permutation Sorted.
From Stdlib Require Import DecimalString.
From Stdlib Require PrimFloat Uint63.
Import ListNotations.
Open Scope Z_scope.

(** ** Cell values *)

Inductive fnum : Type :=
| NaN : fnum
| Inf (neg : bool) : fnum
| Fin (q : Q) : fnum.

Definition isna (x : fnum) : bool :=
  match x with NaN => true | _ => false end.

Definition is_finite (x : fnum) : bool :=
  match x with Fin _ => true | _ => false end.

(** A monetary cell seen as a float value. *)
Definition cell_val (c : option Q) : fnum :=
  match c with Some q => Fin q | None => NaN end.

Definition Qltb (a b : Q) : bool := negb (Qle_bool b a).

Definition fsub (x y : fnum) : fnum :=
  match x, y with
  | NaN, _ | _, NaN => NaN
  | Inf s, Inf s' => if Bool.eqb s s' then NaN else Inf s
  | Inf s, Fin _ => Inf s
  | Fin _, Inf s => Inf (negb s)
  | Fin a, Fin b => Fin (a - b)
  end.

Definition fadd (x y : fnum) : fnum :=
  match x, y with
  | NaN, _ | _, NaN => NaN
  | Inf s, Inf s' => if Bool.eqb s s' then Inf s else NaN
  | Inf s, Fin _ => Inf s
  | Fin _, Inf s => Inf s
  | Fin a, Fin b => Fin (a + b)
  end.

(** True division as numpy does it: a zero divisor gives an infinity of the
    sign of the dividend, and NaN for 0/0.  The zero here has no sign: on
    the float [-0.0] numpy gives the infinity of the other sign. *)
Definition fdiv (x y : fnum) : fnum :=
  match x, y with
  | NaN, _ | _, NaN => NaN
  | Inf _, Inf _ => NaN
  | Inf s, Fin b => Inf (xorb s (Qltb b 0))
  | Fin _, Inf _ => Fin 0
  | Fin a, Fin b =>
      if Qeq_bool b 0 then
        (if Qeq_bool a 0 then NaN else Inf (Qltb a 0))
      else Fin (a / b)
  end.

(** [x <= y] on floats: false as soon as one side is NaN. *)
Definition fle (x y : fnum) : bool :=
  match x, y with
  | NaN, _ | _, NaN => false
  | Inf true, _ => true
  | _, Inf false => true
  | Inf false, _ => false
  | _, Inf true => false
  | Fin a, Fin b => Qle_bool a b
  end.

(** ** Rows *)

Record date : Type := mkDate { year : Z; month : Z; day : Z }.

(** A row of [marvel_clean.csv] after the coercions of lines 19-23. *)
Record RawRow : Type := mkRaw {
  rTitle : string;
  rDistributor : string;
  rReleaseDateUS : option date;
  rBudget : option Q;
  rOpeningWeekendNorthAmerica : option Q;
  rNorthAmerica : option Q;
  rOtherTerritories : option Q;
  rWorldwide : option Q
}.

(** A row of [df] once [Year] and [ROI] are added. *)
Record Row : Type := mkRow {
  Title : string;
  Distributor : string;
  ReleaseDateUS : option date;
  Budget : option Q;
  OpeningWeekendNorthAmerica : option Q;
  NorthAmerica : option Q;
  OtherTerritories : option Q;
  Worldwide : option Q;
  Year : option Z;
  ROI : fnum
}.

Definition frame := list Row.

(** Line 24: [df["ReleaseDateUS"].dt.year]. *)
Definition dt_year (d : option date) : option Z := option_map year d.

(** Line 27: [(df["Worldwide"] - df["Budget"]) / df["Budget"]]. *)
Definition roi_of (worldwide budget : option Q) : fnum :=
  fdiv (fsub (cell_val worldwide) (cell_val budget)) (cell_val budget).

Definition prepare_row (r : RawRow) : Row :=
  {| Title := rTitle r;
     Distributor := rDistributor r;
     ReleaseDateUS := rReleaseDateUS r;
     Budget := rBudget r;
     OpeningWeekendNorthAmerica := rOpeningWeekendNorthAmerica r;
     NorthAmerica := rNorthAmerica r;
     OtherTerritories := rOtherTerritories r;
     Worldwide := rWorldwide r;
     Year := dt_year (rReleaseDateUS r);
     ROI := roi_of (rWorldwide r) (rBudget r) |}.

(** Lines 9-27: the table the process keeps. *)
Definition prepare (raw : list RawRow) : frame := map prepare_row raw.

(** ** Heap of frames, exceptions *)

Inductive pyerr : Type :=
| IndexError      (* list index out of range *)
| IndexingError   (* boolean indexer of the wrong length *)
| DanglingRef     (* a name bound to no frame *)
| TypeError.      (* an operation on a value of the wrong type *)

Inductive result (A : Type) : Type :=
| Ok (a : A)
| Raise (e : pyerr).
Arguments Ok {A} a.
Arguments Raise {A} e.

Definition ref := nat.
Definition heap := list frame.

Definition M (A : Type) : Type := heap -> result (A * heap).

Definition ret {A} (a : A) : M A := fun h => Ok (a, h).

Definition bind {A B} (m : M A) (k : A -> M B) : M B :=
  fun h => match m h with
           | Ok (a, h') => k a h'
           | Raise e => Raise e
           end.

Definition raise {A} (e : pyerr) : M A := fun _ => Raise e.

Notation "x <- m ;; k" := (bind m (fun x => k))
  (at level 61, m at next level, right associativity).

Definition deref (r : ref) : M frame :=
  fun h => match nth_error h r with
           | Some t => Ok (t, h)
           | None => Raise DanglingRef
           end.

Definition alloc (t : frame) : M ref :=
  fun h => Ok (length h, h ++ [t]).

(** The module-level [df]. *)
Definition df_ref : ref := 0%nat.

(** [frame.copy()]. *)
Definition copy (r : ref) : M ref :=
  t <- deref r ;; alloc t.

(** ** Column operations used by [filter_data] *)

Definition str_mem (s : string) (l : list string) : bool :=
  existsb (String.eqb s) l.

(** [frame["Distributor"].isin(values)]. *)
Definition col_isin (r : ref) (values : list string) : M (list bool) :=
  t <- deref r ;; ret (map (fun row => str_mem (Distributor row) values) t).

(** [frame["Year"] >= bound]: a NaN year compares false. *)
Definition year_ge (y : option Z) (bound : Z) : bool :=
  match y with Some v => bound <=? v | None => false end.

Definition year_le (y : option Z) (bound : Z) : bool :=
  match y with Some v => v <=? bound | None => false end.

Definition col_year_ge (r : ref) (bound : Z) : M (list bool) :=
  t <- deref r ;; ret (map (fun row => year_ge (Year row) bound) t).

Definition col_year_le (r : ref) (bound : Z) : M (list bool) :=
  t <- deref r ;; ret (map (fun row => year_le (Year row) bound) t).

(** [m1 & m2] on two boolean columns of one frame. *)
Fixpoint mask_and (m1 m2 : list bool) : list bool :=
  match m1, m2 with
  | b1 :: m1', b2 :: m2' => (b1 && b2) :: mask_and m1' m2'
  | _, _ => []
  end.

Fixpoint select (t : frame) (mask : list bool) : frame :=
  match t, mask with
  | row :: t', b :: mask' =>
      if b then row :: select t' mask' else select t' mask'
  | _, _ => []
  end.

(** [frame[mask]]: a new frame; a mask of another length raises. *)
Definition getitem_mask (r : ref) (mask : list bool) : M ref :=
  t <- deref r ;;
  if Nat.eqb (length mask) (length t) then alloc (select t mask)
  else raise IndexingError.

(** [lst[i]] on a Python list. *)
Definition py_index (l : list Z) (i : nat) : M Z :=
  match nth_error l i with
  | Some v => ret v
  | None => raise IndexError
  end.

(** Truthiness of an optional list: [None] and [[]] are false. *)
Definition truthy {A} (v : option (list A)) : bool :=
  match v with
  | None | Some [] => false
  | Some (_ :: _) => true
  end.

Definition py_list {A} (v : option (list A)) : list A :=
  match v with Some l => l | None => [] end.

(** Lines 107-113. *)
Definition filter_data (distributors : option (list string))
                       (year_range : option (list Z)) : M ref :=
  dff <- copy df_ref ;;
  dff <- (if truthy distributors then
            mask <- col_isin dff (py_list distributors) ;;
            getitem_mask dff mask
          else ret dff) ;;
  dff <- (if truthy year_range && Nat.eqb (length (py_list year_range)) 2 then
            lo <- py_index (py_list year_range) 0 ;;
            m1 <- col_year_ge dff lo ;;
            hi <- py_index (py_list year_range) 1 ;;
            m2 <- col_year_le dff hi ;;
            getitem_mask dff (mask_and m1 m2)
          else ret dff) ;;
  ret dff.

(** The process state when a callback runs: only [df] exists. *)
Definition init_heap (df : frame) : heap := [df].

(** The frame [filter_data] returns, read back from the heap. *)
Definition filtered (df : frame) (distributors : option (list string))
                    (year_range : option (list Z)) : result frame :=
  match (r <- filter_data distributors year_range ;; deref r) (init_heap df) with
  | Ok (t, _) => Ok t
  | Raise e => Raise e
  end.

(** ** Reductions, grouping and sorting used by [update_dashboard] *)

(** [Series.sum()] on a monetary column: NaN cells are skipped, the empty
    sum is 0.  This is the exact sum of the cells; the float64 number is
    [series_sum_f64]. *)
Fixpoint col_sum (c : list (option Q)) : Q :=
  match c with
  | [] => 0%Q
  | Some q :: c' => (q + col_sum c')%Q
  | None :: c' => col_sum c'
  end.

(** [Series.max()]: NaN cells are skipped, NaN when nothing is left. *)
Fixpoint col_max (c : list (option Q)) : option Q :=
  match c with
  | [] => None
  | None :: c' => col_max c'
  | Some q :: c' =>
      match col_max c' with
      | None => Some q
      | Some m => if Qle_bool q m then Some m else Some q
      end
  end.

Definition dropna (c : list fnum) : list fnum :=
  filter (fun x => negb (isna x)) c.

(** [Series.mean()]: the sum of the cells that are not NaN over their
    number; 0/0, so NaN, when there is none. *)
Definition col_mean (c : list fnum) : fnum :=
  fdiv (fold_right fadd (Fin 0) (dropna c))
       (Fin (inject_Z (Z.of_nat (length (dropna c))))).

(** Distinct values, first occurrences kept. *)
Fixpoint uniq {K} (eqb : K -> K -> bool) (l : list K) : list K :=
  match l with
  | [] => []
  | x :: l' => x :: filter (fun y => negb (eqb x y)) (uniq eqb l')
  end.

(** [Series.nunique()]. *)
Definition nunique (c : list string) : nat := length (uniq String.eqb c).

Fixpoint insert_by {A} (before : A -> A -> bool) (x : A) (l : list A) : list A :=
  match l with
  | [] => [x]
  | y :: l' => if before x y then x :: y :: l' else y :: insert_by before x l'
  end.

(** A stable insertion sort: [before x y] says that [x] may stand in front
    of [y]. *)
Definition isort {A} (before : A -> A -> bool) (l : list A) : list A :=
  fold_right (insert_by before) [] l.

Fixpoint cat_somes {K} (l : list (option K)) : list K :=
  match l with
  | [] => []
  | Some k :: l' => k :: cat_somes l'
  | None :: l' => cat_somes l'
  end.

Definition key_is {K} (eqb : K -> K -> bool) (k : K) (c : option K) : bool :=
  match c with Some k' => eqb k k' | None => false end.

(** [frame.groupby(key, as_index=False)[val].sum()]: one line per distinct
    key that is not NaN, in increasing key order, with the NaN-skipping sum
    of [val] over the rows of that key. *)
Definition groupby_sum {K} (eqb leb : K -> K -> bool)
    (key : Row -> option K) (val : Row -> option Q) (t : frame) : list (K * Q) :=
  map (fun k => (k, col_sum (map val (filter (fun r => key_is eqb k (key r)) t))))
      (isort leb (uniq eqb (cat_somes (map key t)))).

(** [sort_values(by, ascending=False)]: decreasing keys, the rows whose key
    is NaN last (pandas' [na_position="last"]), in their original order.
    Rows of equal key keep their table order here; numpy's default sort
    does not promise that, and no statement below depends on it. *)
Definition sort_values_desc {A} (key : A -> fnum) (l : list A) : list A :=
  isort (fun x y => fle (key y) (key x))
        (filter (fun x => negb (isna (key x))) l)
  ++ filter (fun x => isna (key x)) l.

Definition series {A} (r : ref) (col : Row -> A) : M (list A) :=
  t <- deref r ;; ret (map col t).

Definition sort_values (r : ref) (key : Row -> fnum) : M ref :=
  t <- deref r ;; alloc (sort_values_desc key t).

Definition head (r : ref) (n : nat) : M ref :=
  t <- deref r ;; alloc (firstn n t).

(** What the callback hands to the page: the five KPI numbers (before
    formatting) and the data of the five figures. *)
Record dashboard : Type := mkDashboard {
  total_worldwide : Q;
  total_budget : Q;
  avg_roi : fnum;
  max_opening : option Q;
  movie_count : nat;
  fig_scatter : frame;
  fig_bar_dist : list (string * Q);
  fig_bar_roi : frame;
  fig_line_year : list (Z * Q);
  fig_top10 : frame
}.

(** Lines 134-249, without the HTML and plotly objects. *)
Definition update_dashboard (distributors : option (list string))
                            (year_range : option (list Z)) : M dashboard :=
  dff <- filter_data distributors year_range ;;
  worldwide <- series dff Worldwide ;;
  budget <- series dff Budget ;;
  roi <- series dff ROI ;;
  opening <- series dff OpeningWeekendNorthAmerica ;;
  titles <- series dff Title ;;
  scatter <- deref dff ;;
  dff_dist <- (t <- deref dff ;;
               ret (groupby_sum String.eqb String.leb
                      (fun r => Some (Distributor r)) Worldwide t)) ;;
  dff_roi <- sort_values dff ROI ;;
  bar_roi <- deref dff_roi ;;
  dff_year <- (t <- deref dff ;;
               ret (groupby_sum Z.eqb Z.leb Year Worldwide t)) ;;
  by_worldwide <- sort_values dff (fun r => cell_val (Worldwide r)) ;;
  dff_top10 <- head by_worldwide 10 ;;
  top10 <- deref dff_top10 ;;
  ret {| total_worldwide := col_sum worldwide;
         total_budget := col_sum budget;
         avg_roi := col_mean roi;
         max_opening := col_max opening;
         movie_count := nunique titles;
         fig_scatter := scatter;
         fig_bar_dist := sort_values_desc (fun p => Fin (snd p)) dff_dist;
         fig_bar_roi := bar_roi;
         fig_line_year := dff_year;
         fig_top10 := top10 |}.

(** One callback run on a process whose table is [df]: the outputs and the
    heap it leaves. *)
Definition recompute (df : frame) (distributors : option (list string))
                     (year_range : option (list Z)) : result (dashboard * heap) :=
  update_dashboard distributors year_range (init_heap df).

(** ** A two-movie table to run the model on *)

Definition movie (title dist : string) (y : Z) (budget worldwide : Q) : RawRow :=
  {| rTitle := title; rDistributor := dist;
     rReleaseDateUS := Some (mkDate y 5 1);
     rBudget := Some budget;
     rOpeningWeekendNorthAmerica := Some (worldwide / 4)%Q;
     rNorthAmerica := Some (worldwide / 2)%Q;
     rOtherTerritories := Some (worldwide / 2)%Q;
     rWorldwide := Some worldwide |}.

Definition two_movies : frame :=
  prepare [movie "First" "A" 2012 100 300; movie "Second" "B" 2015 200 200].

(** ** Vocabulary of the statements *)

(** The distributor test of line 109-110 on one row. *)
Definition dist_pass (distributors : option (list string)) (row : Row) : bool :=
  if truthy distributors then str_mem (Distributor row) (py_list distributors)
  else true.

(** The year test of lines 111-112 on one row. *)
Definition year_pass (year_range : option (list Z)) (row : Row) : bool :=
  match year_range with
  | Some [lo; hi] => year_ge (Year row) lo && year_le (Year row) hi
  | _ => true
  end.

(** Both tests. *)
Definition keep (distributors : option (list string))
                (year_range : option (list Z)) (row : Row) : bool :=
  dist_pass distributors row && year_pass year_range row.

(** The heap only grows. *)
Definition extends (h h' : heap) : Prop := exists ext, h' = h ++ ext.

(** The outputs as functions of the filtered frame [dff]. *)
Definition outputs_of (dff : frame) : dashboard :=
  {| total_worldwide := col_sum (map Worldwide dff);
     total_budget := col_sum (map Budget dff);
     avg_roi := col_mean (map ROI dff);
     max_opening := col_max (map OpeningWeekendNorthAmerica dff);
     movie_count := nunique (map Title dff);
     fig_scatter := dff;
     fig_bar_dist :=
       sort_values_desc (fun p => Fin (snd p))
         (groupby_sum String.eqb String.leb
            (fun r => Some (Distributor r)) Worldwide dff);
     fig_bar_roi := sort_values_desc ROI dff;
     fig_line_year := groupby_sum Z.eqb Z.leb Year Worldwide dff;
     fig_top10 :=
       firstn 10 (sort_values_desc (fun r => cell_val (Worldwide r)) dff) |}.

(** [x] may stand in front of [y] in a frame sorted in decreasing [key]
    order: [y] has no key, or both have one and [key y <= key x]. *)
Definition desc_by {A} (key : A -> fnum) (x y : A) : Prop :=
  isna (key y) = true \/ fle (key y) (key x) = true.

(** A missing amount counts for 0 in a sum. *)
Definition cell0 (c : option Q) : Q :=
  match c with Some q => q | None => 0%Q end.

Definition Qsum (l : list Q) : Q := fold_right Qplus 0%Q l.

(** The sum of one group, as [groupby_sum] computes it. *)
Definition group_total {K} (eqb : K -> K -> bool) (key : Row -> option K)
    (val : Row -> option Q) (t : frame) (k : K) : Q :=
  col_sum (map val (filter (fun r => key_is eqb k (key r)) t)).

(** The rows [groupby] keeps: those whose key is not NaN. *)
Definition has_key {K} (key : Row -> option K) (r : Row) : bool :=
  match key r with Some _ => true | None => false end.

(** [o] is no greater than [i]: [o] is NaN, or both are numbers and
    [o <= i]. *)
Definition no_greater (o i : option Q) : Prop :=
  match o, i with
  | None, _ => True
  | Some b, Some a => (b <= a)%Q
  | Some _, None => False
  end.

(** A movie made for nothing. *)
Definition free_movie : RawRow :=
  {| rTitle := "Free"; rDistributor := "A";
     rReleaseDateUS := Some (mkDate 2012 5 1);
     rBudget := Some 0%Q;
     rOpeningWeekendNorthAmerica := Some 10%Q;
     rNorthAmerica := Some 20%Q;
     rOtherTerritories := Some 30%Q;
     rWorldwide := Some 50%Q |}.

(** A movie whose date and budget did not parse. *)
Definition no_date_movie : RawRow :=
  {| rTitle := "Lost"; rDistributor := "B";
     rReleaseDateUS := None;
     rBudget := None;
     rOpeningWeekendNorthAmerica := None;
     rNorthAmerica := None;
     rOtherTerritories := None;
     rWorldwide := Some 70%Q |}.

(** ** The controls of the page (lines 34 and 58-66) *)

(** Line 34: one option per distinct distributor, label and value alike, in
    sorted order. *)
Definition distributor_options (df : frame) : list (string * string) :=
  map (fun d => (d, d))
      (isort String.leb (uniq String.eqb (map Distributor df))).

(** Building the layout can fail: [int(x)] raises [ValueError] on NaN. *)
Inductive startup (A : Type) : Type :=
| Built (a : A)
| ValueError.
Arguments Built {A} a.
Arguments ValueError {A}.

Definition py_int (y : option Z) : startup Z :=
  match y with Some v => Built v | None => ValueError end.

(** [str(y)] on an integer year. *)
Definition py_str (y : Z) : string := NilZero.string_of_int (Z.to_int y).

(** [Series.min()] and [Series.max()] on the year column: NaN years are
    skipped, NaN when nothing is left. *)
Fixpoint year_min (c : list (option Z)) : option Z :=
  match c with
  | [] => None
  | None :: c' => year_min c'
  | Some y :: c' =>
      match year_min c' with
      | None => Some y
      | Some m => Some (Z.min y m)
      end
  end.

Fixpoint year_max (c : list (option Z)) : option Z :=
  match c with
  | [] => None
  | None :: c' => year_max c'
  | Some y :: c' =>
      match year_max c' with
      | None => Some y
      | Some m => Some (Z.max y m)
      end
  end.

(** Equality and order on year cells as [unique()] and [sorted()] see
    them: NaN is one value for [unique()], and compares false. *)
Definition year_eqb (x y : option Z) : bool :=
  match x, y with
  | Some a, Some b => a =? b
  | None, None => true
  | _, _ => false
  end.

Definition year_leb (x y : option Z) : bool :=
  match x, y with
  | Some a, Some b => a <=? b
  | _, _ => false
  end.

(** Line 64: [{int(y): str(y) for y in ...}]. *)
Fixpoint marks_of (ys : list (option Z)) : startup (list (Z * string)) :=
  match ys with
  | [] => Built []
  | y :: ys' =>
      match py_int y with
      | ValueError => ValueError
      | Built k =>
          match marks_of ys' with
          | ValueError => ValueError
          | Built m => Built ((k, py_str k) :: m)
          end
      end
  end.

Record range_slider : Type := mkSlider {
  slider_min : Z;
  slider_max : Z;
  slider_value : list Z;
  slider_marks : list (Z * string)
}.

Definition startup_bind {A B} (m : startup A) (k : A -> startup B) : startup B :=
  match m with Built a => k a | ValueError => ValueError end.

(** Lines 58-66: the arguments of the year [RangeSlider], in the order
    Python evaluates them. *)
Definition year_slider (df : frame) : startup range_slider :=
  let years := map Year df in
  startup_bind (py_int (year_min years)) (fun lo =>
  startup_bind (py_int (year_max years)) (fun hi =>
  startup_bind (py_int (year_min years)) (fun v0 =>
  startup_bind (py_int (year_max years)) (fun v1 =>
  startup_bind (marks_of (isort year_leb (uniq year_eqb years))) (fun marks =>
  Built {| slider_min := lo; slider_max := hi;
           slider_value := [v0; v1]; slider_marks := marks |}))))).

(** ** [filter_data] on the values a callback can be sent

    [filter_data] above takes what the page's two controls send: a list of
    strings or nothing from the [multi] dropdown, a list of integers or
    nothing from the range slider.  Python does not check that.  The
    function below is the same code on the arguments a control of the other
    kind would send as well: one string (a dropdown that is not [multi]) or
    one integer (a plain slider).  Values of other shapes are not
    modelled. *)

Inductive py_selection : Type :=
| SelNone
| SelStr (s : string)
| SelList (l : list string).

Inductive py_range : Type :=
| RangeNone
| RangeInt (z : Z)
| RangeList (l : list Z).

(** Truthiness: [None], [""], [0] and [[]] are false. *)
Definition sel_truthy (d : py_selection) : bool :=
  match d with
  | SelNone => false
  | SelStr s => negb (String.eqb s "")
  | SelList [] => false
  | SelList (_ :: _) => true
  end.

Definition range_truthy (y : py_range) : bool :=
  match y with
  | RangeNone => false
  | RangeInt z => negb (z =? 0)
  | RangeList [] => false
  | RangeList (_ :: _) => true
  end.

(** [frame["Distributor"].isin(values)]: pandas accepts list-likes only. *)
Definition col_isin_py (r : ref) (values : py_selection) : M (list bool) :=
  match values with
  | SelList l => col_isin r l
  | SelNone | SelStr _ => raise TypeError
  end.

(** [len(year_range)] and [year_range[i]]: an integer has neither. *)
Definition py_len (y : py_range) : M nat :=
  match y with
  | RangeList l => ret (length l)
  | RangeNone | RangeInt _ => raise TypeError
  end.

Definition py_getitem (y : py_range) (i : nat) : M Z :=
  match y with
  | RangeList l => py_index l i
  | RangeNone | RangeInt _ => raise TypeError
  end.

(** Lines 107-113 again; [and] evaluates [len] only on a true range. *)
Definition filter_data_py (distributors : py_selection)
                          (year_range : py_range) : M ref :=
  dff <- copy df_ref ;;
  dff <- (if sel_truthy distributors then
            mask <- col_isin_py dff distributors ;;
            getitem_mask dff mask
          else ret dff) ;;
  two <- (if range_truthy year_range then
            n <- py_len year_range ;; ret (Nat.eqb n 2)
          else ret false) ;;
  dff <- (if two then
            lo <- py_getitem year_range 0 ;;
            m1 <- col_year_ge dff lo ;;
            hi <- py_getitem year_range 1 ;;
            m2 <- col_year_le dff hi ;;
            getitem_mask dff (mask_and m1 m2)
          else ret dff) ;;
  ret dff.

Definition filtered_py (df : frame) (distributors : py_selection)
                       (year_range : py_range) : result frame :=
  match (r <- filter_data_py distributors year_range ;; deref r) (init_heap df) with
  | Ok (t, _) => Ok t
  | Raise e => Raise e
  end.

(** The arguments of [filter_data] among those of [filter_data_py]. *)
Definition sel_of (ds : option (list string)) : py_selection :=
  match ds with Some l => SelList l | None => SelNone end.

Definition range_of (yr : option (list Z)) : py_range :=
  match yr with Some l => RangeList l | None => RangeNone end.

(** The arguments on which [filter_data_py] fails, and what the others
    amount to for [filter_data]. *)
Definition sel_bad (d : py_selection) : bool :=
  match d with SelStr s => negb (String.eqb s "") | _ => false end.

Definition range_bad (y : py_range) : bool :=
  match y with RangeInt z => negb (z =? 0) | _ => false end.

Definition sel_as_list (d : py_selection) : option (list string) :=
  match d with SelList l => Some l | _ => None end.

Definition range_as_list (y : py_range) : option (list Z) :=
  match y with RangeList l => Some l | _ => None end.

(** ** The sums of lines 138 and 198 in float64

    [col_sum] is the exact sum of the cells.  On a float64 column pandas
    computes it with rounding, and by two routines: [Series.sum()] hands
    the column to numpy's [add.reduce], the [groupby] sum runs a
    compensated (Kahan) loop of its own.  Both are written out here on
    binary64 numbers, for the (Distributor, Worldwide) columns of a frame. *)

Definition f64 : Set := PrimFloat.float.

Definition f64_of_Z (z : Z) : f64 := PrimFloat.of_uint63 (Uint63.of_Z z).

(** The binary64 number nearest to [n / 10]: the cell read from the text
    of a one-decimal amount. *)
Definition tenths (n : Z) : f64 := PrimFloat.div (f64_of_Z n) (f64_of_Z 10).

(** NaN is the one value different from itself. *)
Definition f64_isna (x : f64) : bool := negb (PrimFloat.eqb x x).

Definition f64_sum_from (acc : f64) (l : list f64) : f64 :=
  fold_left PrimFloat.add l acc.

Fixpoint zip_add (r b : list f64) : list f64 :=
  match r, b with
  | x :: r', y :: b' => PrimFloat.add x y :: zip_add r' b'
  | _, _ => r
  end.

(** [k] times: add the next 8 cells to the 8 accumulators. *)
Fixpoint add_blocks (k : nat) (r l : list f64) : list f64 * list f64 :=
  match k with
  | O => (r, l)
  | S k' => add_blocks k' (zip_add r (firstn 8 l)) (skipn 8 l)
  end.

(** numpy's sum of a block of 8 to 128 cells: 8 running sums, combined in
    pairs, then the cells left over. *)
Definition block_sum (a : list f64) : f64 :=
  let '(r, rest) := add_blocks (length a / 8 - 1) (firstn 8 a) (skipn 8 a) in
  match r with
  | [r0; r1; r2; r3; r4; r5; r6; r7] =>
      f64_sum_from
        (PrimFloat.add
           (PrimFloat.add (PrimFloat.add r0 r1) (PrimFloat.add r2 r3))
           (PrimFloat.add (PrimFloat.add r4 r5) (PrimFloat.add r6 r7)))
        rest
  | _ => PrimFloat.nan
  end.

(** numpy's pairwise summation: fewer than 8 cells are added from left to
    right, up to 128 by [block_sum], more by halves (the first half a
    multiple of 8).  [fuel] bounds the halving; [length a] is enough. *)
Fixpoint pairwise_sum (fuel : nat) (a : list f64) : f64 :=
  let n := length a in
  if Nat.ltb n 8 then f64_sum_from PrimFloat.zero a
  else if Nat.leb n 128 then block_sum a
  else
    match fuel with
    | O => PrimFloat.nan
    | S fuel' =>
        let n2 := (n / 2 - (n / 2) mod 8)%nat in
        PrimFloat.add (pairwise_sum fuel' (firstn n2 a))
                      (pairwise_sum fuel' (skipn n2 a))
    end.

(** [Series.sum()] on a float64 column: NaN cells count as 0, the rest is
    numpy's reduction from the identity 0. *)
Definition series_sum_f64 (c : list f64) : f64 :=
  let filled := map (fun x => if f64_isna x then PrimFloat.zero else x) c in
  PrimFloat.add PrimFloat.zero (pairwise_sum (length filled) filled).

(** One step of pandas' [group_sum]: the running sum and its
    compensation; a compensation that became NaN is reset. *)
Definition kahan_step (st : f64 * f64) (val : f64) : f64 * f64 :=
  let '(sumx, compensation) := st in
  let y := PrimFloat.sub val compensation in
  let t := PrimFloat.add sumx y in
  let c := PrimFloat.sub (PrimFloat.sub t sumx) y in
  (t, if f64_isna c then PrimFloat.zero else c).

(** The sum of one group: NaN cells are skipped. *)
Definition group_sum_f64 (c : list f64) : f64 :=
  fst (fold_left kahan_step (filter (fun x => negb (f64_isna x)) c)
         (PrimFloat.zero, PrimFloat.zero)).

(** [groupby("Distributor", as_index=False)["Worldwide"].sum()] on the two
    columns. *)
Definition groupby_sum_f64 (t : list (string * f64)) : list (string * f64) :=
  map (fun k => (k, group_sum_f64
                      (map snd (filter (fun p => String.eqb k (fst p)) t))))
      (isort String.leb (uniq String.eqb (map fst t))).

(** Line 138 and the sum of the table of line 198. *)
Definition total_worldwide_f64 (t : list (string * f64)) : f64 :=
  series_sum_f64 (map snd t).

Definition bars_total_f64 (t : list (string * f64)) : f64 :=
  series_sum_f64 (map snd (groupby_sum_f64 t)).

(** Five movies of two distributors, amounts in millions. *)
Definition five_movies_f64 : list (string * f64) :=
  [("B"%string, tenths 5852); ("A"%string, tenths 6239);
   ("B"%string, tenths 2634); ("A"%string, tenths 12154);
   ("B"%string, tenths 6448)].

(** * Properties *)

(** ** The heap primitives *)

Lemma bind_ok {A B} (m : M A) (k : A -> M B) h a h' :
  m h = Ok (a, h') -> bind m k h = k a h'.
Proof. unfold bind. intros ->. reflexivity. Qed.

Lemma deref_ok h r t :
  nth_error h r = Some t -> deref r h = Ok (t, h).
Proof. unfold deref. intros ->. reflexivity. Qed.

Lemma nth_error_alloc_new (h : heap) t :
  nth_error (h ++ [t]) (length h) = Some t.
Proof.
  rewrite nth_error_app2 by lia. rewrite Nat.sub_diag. reflexivity.
Qed.

Lemma nth_error_alloc_old (h : heap) t r u :
  nth_error h r = Some u -> nth_error (h ++ [t]) r = Some u.
Proof.
  intros H. rewrite nth_error_app1; [exact H|].
  apply nth_error_Some. congruence.
Qed.

Lemma select_map (p : Row -> bool) t : select t (map p t) = filter p t.
Proof.
  induction t as [|row t IH]; simpl; [reflexivity|].
  rewrite IH. reflexivity.
Qed.

Lemma mask_and_map (p q : Row -> bool) t :
  mask_and (map p t) (map q t) = map (fun row => p row && q row) t.
Proof.
  induction t as [|row t IH]; simpl; [reflexivity|].
  rewrite IH. reflexivity.
Qed.

Lemma getitem_mask_map h r t (p : Row -> bool) :
  nth_error h r = Some t ->
  getitem_mask r (map p t) h = Ok (length h, h ++ [filter p t]).
Proof.
  intros H. unfold getitem_mask.
  rewrite (bind_ok _ _ _ _ _ (deref_ok _ _ _ H)).
  rewrite length_map, Nat.eqb_refl, select_map. reflexivity.
Qed.

Lemma filter_filter {A} (p q : A -> bool) l :
  filter q (filter p l) = filter (fun x => p x && q x) l.
Proof.
  induction l as [|x l IH]; simpl; [reflexivity|].
  destruct (p x); simpl; [destruct (q x)|]; rewrite IH; reflexivity.
Qed.

Lemma filter_true {A} (l : list A) : filter (fun _ => true) l = l.
Proof.
  induction l as [|x l IH]; simpl; [reflexivity|]. rewrite IH. reflexivity.
Qed.

(** ** What [filter_data] computes *)

Lemma extends_refl h : extends h h.
Proof. exists []. symmetry. apply app_nil_r. Qed.

Lemma extends_alloc h h' t : extends h h' -> extends h (h' ++ [t]).
Proof. intros [ext ->]. exists (ext ++ [t]). symmetry. apply app_assoc. Qed.

Lemma extends_nth h h' r t :
  extends h h' -> nth_error h r = Some t -> nth_error h' r = Some t.
Proof.
  intros [ext ->] H. rewrite nth_error_app1; [exact H|].
  apply nth_error_Some. congruence.
Qed.

Lemma distributor_step h r t ds :
  nth_error h r = Some t ->
  exists r' h',
    (if truthy ds then
       mask <- col_isin r (py_list ds) ;; getitem_mask r mask
     else ret r) h = Ok (r', h')
    /\ (r <= r')%nat
    /\ extends h h'
    /\ nth_error h' r' = Some (filter (dist_pass ds) t).
Proof.
  intros H.
  assert (L : (r < length h)%nat) by (apply nth_error_Some; congruence).
  unfold dist_pass. destruct (truthy ds).
  - exists (length h), (h ++ [filter (fun row => str_mem (Distributor row) (py_list ds)) t]).
    split; [|split; [lia|split]].
    + unfold col_isin.
      rewrite (bind_ok _ _ h (map (fun row => str_mem (Distributor row) (py_list ds)) t) h).
      * apply getitem_mask_map, H.
      * rewrite (bind_ok _ _ _ _ _ (deref_ok _ _ _ H)). reflexivity.
    + apply extends_alloc, extends_refl.
    + apply nth_error_alloc_new.
  - exists r, h. split; [reflexivity|split; [lia|split]].
    + apply extends_refl.
    + rewrite filter_true. exact H.
Qed.

Lemma year_step h r t yr :
  nth_error h r = Some t ->
  exists r' h',
    (if truthy yr && Nat.eqb (length (py_list yr)) 2 then
       lo <- py_index (py_list yr) 0 ;;
       m1 <- col_year_ge r lo ;;
       hi <- py_index (py_list yr) 1 ;;
       m2 <- col_year_le r hi ;;
       getitem_mask r (mask_and m1 m2)
     else ret r) h = Ok (r', h')
    /\ (r <= r')%nat
    /\ extends h h'
    /\ nth_error h' r' = Some (filter (year_pass yr) t).
Proof.
  intros H.
  assert (L : (r < length h)%nat) by (apply nth_error_Some; congruence).
  assert (Hno : exists r' h', ret r h = Ok (r', h') /\ (r <= r')%nat
                  /\ extends h h'
                  /\ nth_error h' r' = Some (filter (fun _ => true) t)).
  { exists r, h. split; [reflexivity|split; [lia|split]].
    - apply extends_refl.
    - rewrite filter_true. exact H. }
  destruct yr as [[|lo [|hi [|x l]]]|]; simpl; try exact Hno.
  exists (length h),
    (h ++ [filter (fun row => year_ge (Year row) lo && year_le (Year row) hi) t]).
  split; [|split; [lia|split]].
  - unfold py_index, col_year_ge, col_year_le. simpl.
    unfold bind at 1. unfold ret at 1.
    unfold bind at 1.
    rewrite (bind_ok _ _ _ _ _ (deref_ok _ _ _ H)). unfold ret at 1.
    unfold bind at 1. unfold ret at 1.
    unfold bind at 1.
    rewrite (bind_ok _ _ _ _ _ (deref_ok _ _ _ H)). unfold ret at 1.
    rewrite mask_and_map. apply getitem_mask_map, H.
  - apply extends_alloc, extends_refl.
  - apply nth_error_alloc_new.
Qed.

Lemma extends_trans h1 h2 h3 : extends h1 h2 -> extends h2 h3 -> extends h1 h3.
Proof.
  intros [e1 ->] [e2 ->]. exists (e1 ++ e2). symmetry. apply app_assoc.
Qed.

(** From any state in which [df] is bound, [filter_data] returns a frame
    that is not [df] and holds the rows that pass both tests. *)
Lemma filter_data_run h df ds yr :
  nth_error h df_ref = Some df ->
  exists r h',
    filter_data ds yr h = Ok (r, h')
    /\ r <> df_ref
    /\ extends h h'
    /\ nth_error h' r = Some (filter (keep ds yr) df).
Proof.
  intros H. unfold filter_data.
  assert (L : (df_ref < length h)%nat) by (apply nth_error_Some; congruence).
  assert (H0 : copy df_ref h = Ok (length h, h ++ [df])).
  { unfold copy. rewrite (bind_ok _ _ _ _ _ (deref_ok _ _ _ H)). reflexivity. }
  rewrite (bind_ok _ _ _ _ _ H0).
  destruct (distributor_step (h ++ [df]) (length h) df ds (nth_error_alloc_new h df))
    as (r1 & h1 & E1 & L1 & X1 & N1).
  rewrite (bind_ok _ _ _ _ _ E1).
  destruct (year_step h1 r1 _ yr N1) as (r2 & h2 & E2 & L2 & X2 & N2).
  rewrite (bind_ok _ _ _ _ _ E2).
  exists r2, h2. split; [reflexivity|split; [lia|split]].
  - eapply extends_trans; [|exact X2].
    eapply extends_trans; [|exact X1].
    apply extends_alloc, extends_refl.
  - rewrite N2. rewrite filter_filter. reflexivity.
Qed.

Lemma filtered_eq df ds yr :
  filtered df ds yr = Ok (filter (keep ds yr) df).
Proof.
  unfold filtered.
  destruct (filter_data_run (init_heap df) df ds yr eq_refl)
    as (r & h' & E & _ & _ & N).
  rewrite (bind_ok _ _ _ _ _ E), (deref_ok _ _ _ N). reflexivity.
Qed.

(** ** What [update_dashboard] computes *)

Lemma series_ok {A} h r t (col : Row -> A) :
  nth_error h r = Some t -> series r col h = Ok (map col t, h).
Proof.
  intros H. unfold series.
  rewrite (bind_ok _ _ _ _ _ (deref_ok _ _ _ H)). reflexivity.
Qed.

Lemma sort_values_ok h r t key :
  nth_error h r = Some t ->
  sort_values r key h = Ok (length h, h ++ [sort_values_desc key t]).
Proof.
  intros H. unfold sort_values.
  rewrite (bind_ok _ _ _ _ _ (deref_ok _ _ _ H)). reflexivity.
Qed.

Lemma head_ok h r t n :
  nth_error h r = Some t ->
  head r n h = Ok (length h, h ++ [firstn n t]).
Proof.
  intros H. unfold head.
  rewrite (bind_ok _ _ _ _ _ (deref_ok _ _ _ H)). reflexivity.
Qed.

Lemma update_dashboard_run h0 df ds yr :
  nth_error h0 df_ref = Some df ->
  exists h',
    update_dashboard ds yr h0 = Ok (outputs_of (filter (keep ds yr) df), h')
    /\ extends h0 h'.
Proof.
  intros H0. unfold update_dashboard.
  destruct (filter_data_run h0 df ds yr H0) as (r & h & E & _ & X & N).
  rewrite (bind_ok _ _ _ _ _ E).
  set (dff := filter (keep ds yr) df) in *.
  do 5 (erewrite bind_ok; [|apply series_ok, N]).
  rewrite (bind_ok _ _ _ _ _ (deref_ok _ _ _ N)).
  erewrite bind_ok;
    [|rewrite (bind_ok _ _ _ _ _ (deref_ok _ _ _ N)); reflexivity].
  rewrite (bind_ok _ _ _ _ _ (sort_values_ok _ _ _ ROI N)).
  set (h1 := h ++ [sort_values_desc ROI dff]).
  assert (N1 : nth_error h1 r = Some dff) by (apply nth_error_alloc_old, N).
  assert (R1 : nth_error h1 (length h) = Some (sort_values_desc ROI dff))
    by apply nth_error_alloc_new.
  rewrite (bind_ok _ _ _ _ _ (deref_ok _ _ _ R1)).
  erewrite bind_ok;
    [|rewrite (bind_ok _ _ _ _ _ (deref_ok _ _ _ N1)); reflexivity].
  rewrite (bind_ok _ _ _ _ _
             (sort_values_ok _ _ _ (fun r => cell_val (Worldwide r)) N1)).
  set (h2 := h1 ++ [sort_values_desc (fun r => cell_val (Worldwide r)) dff]).
  assert (R2 : nth_error h2 (length h1)
               = Some (sort_values_desc (fun r => cell_val (Worldwide r)) dff))
    by apply nth_error_alloc_new.
  rewrite (bind_ok _ _ _ _ _ (head_ok _ _ _ 10%nat R2)).
  rewrite (bind_ok _ _ _ _ _ (deref_ok _ _ _ (nth_error_alloc_new h2 _))).
  eexists. split; [reflexivity|].
  subst h2 h1. repeat apply extends_alloc. exact X.
Qed.

Lemma recompute_run df ds yr :
  exists h',
    recompute df ds yr = Ok (outputs_of (filter (keep ds yr) df), h').
Proof.
  destruct (update_dashboard_run (init_heap df) df ds yr eq_refl) as (h' & E & _).
  exists h'. exact E.
Qed.

(** ** The order on float values *)

Lemma fle_trans x y z :
  fle x y = true -> fle y z = true -> fle x z = true.
Proof.
  destruct x as [|[|]|a], y as [|[|]|b], z as [|[|]|c]; simpl;
    try congruence.
  rewrite !Qle_bool_iff. apply Qle_trans.
Qed.

Lemma fle_total x y :
  isna x = false -> isna y = false -> fle x y = false -> fle y x = true.
Proof.
  destruct x as [|[|]|a], y as [|[|]|b]; simpl; try congruence.
  intros _ _ H. apply Qle_bool_iff.
  destruct (Qlt_le_dec b a) as [L|L].
  - apply Qlt_le_weak, L.
  - apply Qle_bool_iff in L. congruence.
Qed.

(** ** Insertion sort *)

Section Isort.
Context {A : Type}.
Variable before : A -> A -> bool.

Lemma insert_by_perm x l : Permutation (x :: l) (insert_by before x l).
Proof.
  induction l as [|y l IH]; simpl; [reflexivity|].
  destruct (before x y); [reflexivity|].
  rewrite perm_swap. constructor. exact IH.
Qed.

Lemma isort_perm l : Permutation l (isort before l).
Proof.
  induction l as [|x l IH]; simpl; [constructor|].
  rewrite <- insert_by_perm. constructor. exact IH.
Qed.

(** Sortedness, for the elements of a domain [dom] on which [before] is
    transitive and total. *)
Variable dom : A -> Prop.
Hypothesis before_trans :
  forall x y z, before x y = true -> before y z = true -> before x z = true.
Hypothesis before_total :
  forall x y, dom x -> dom y -> before x y = false -> before y x = true.

Lemma insert_by_sorted x l :
  dom x -> Forall dom l ->
  StronglySorted (fun a b => before a b = true) l ->
  StronglySorted (fun a b => before a b = true) (insert_by before x l).
Proof.
  intros Dx Dl S. induction S as [|y l S IH F]; simpl.
  - repeat constructor.
  - inversion Dl as [|? ? Dy Dl']; subst.
    destruct (before x y) eqn:E.
    + constructor; [constructor; assumption|].
      constructor; [exact E|].
      eapply Forall_impl; [|exact F]. simpl. intros z Hz.
      eapply before_trans; eassumption.
    + constructor; [apply IH, Dl'|].
      eapply Permutation_Forall; [apply insert_by_perm|].
      constructor; [|exact F].
      apply before_total; assumption.
Qed.

Lemma isort_sorted l :
  Forall dom l -> StronglySorted (fun a b => before a b = true) (isort before l).
Proof.
  induction l as [|x l IH]; simpl; intros D; [constructor|].
  inversion D; subst.
  apply insert_by_sorted; auto.
  eapply Permutation_Forall; [apply isort_perm|]. assumption.
Qed.
End Isort.

Lemma StronglySorted_app {A} (R : A -> A -> Prop) l1 l2 :
  StronglySorted R l1 -> StronglySorted R l2 ->
  (forall x y, In x l1 -> In y l2 -> R x y) ->
  StronglySorted R (l1 ++ l2).
Proof.
  intros S1 S2 H. induction S1 as [|x l1 S1 IH F]; simpl; [exact S2|].
  constructor.
  - apply IH. intros a b Ha Hb. apply H; [right; exact Ha|exact Hb].
  - apply Forall_app. split; [exact F|].
    apply Forall_forall. intros y Hy. apply H; [left; reflexivity|exact Hy].
Qed.

Lemma StronglySorted_app_inv {A} (R : A -> A -> Prop) l1 l2 :
  StronglySorted R (l1 ++ l2) ->
  forall x y, In x l1 -> In y l2 -> R x y.
Proof.
  induction l1 as [|a l1 IH]; simpl; intros S x y Hx Hy; [contradiction|].
  inversion S as [|? ? S' F]; subst.
  destruct Hx as [->|Hx].
  - rewrite Forall_forall in F. apply F, in_or_app. right. exact Hy.
  - eapply IH; eassumption.
Qed.

Lemma StronglySorted_weaken {A} (R R' : A -> A -> Prop) l :
  (forall x y, R x y -> R' x y) -> StronglySorted R l -> StronglySorted R' l.
Proof.
  intros H S. induction S as [|x l S IH F]; constructor; [exact IH|].
  eapply Forall_impl; [|exact F]. intros y. apply H.
Qed.

(** ** [sort_values(ascending=False)] *)

Lemma filter_partition_perm {A} (p : A -> bool) l :
  Permutation l (filter (fun x => negb (p x)) l ++ filter p l).
Proof.
  induction l as [|x l IH]; simpl; [constructor|].
  destruct (p x); simpl.
  - apply Permutation_cons_app. exact IH.
  - constructor. exact IH.
Qed.

Lemma sort_values_desc_perm {A} (key : A -> fnum) l :
  Permutation l (sort_values_desc key l).
Proof.
  unfold sort_values_desc.
  rewrite <- isort_perm. apply filter_partition_perm.
Qed.

Lemma sort_values_desc_sorted {A} (key : A -> fnum) l :
  StronglySorted (desc_by key) (sort_values_desc key l).
Proof.
  unfold sort_values_desc. apply StronglySorted_app.
  - apply StronglySorted_weaken
      with (R := fun a b => fle (key b) (key a) = true).
    + intros x y H. right. exact H.
    + apply isort_sorted with (dom := fun x => isna (key x) = false).
      * intros x y z H1 H2. eapply fle_trans; eassumption.
      * intros x y Dx Dy H. apply fle_total; assumption.
      * apply Forall_forall. intros x Hx. apply filter_In in Hx.
        destruct Hx as [_ Hx]. apply negb_true_iff, Hx.
  - induction l as [|x l IH]; simpl; [constructor|].
    destruct (isna (key x)) eqn:E; [|exact IH].
    constructor; [exact IH|].
    apply Forall_forall. intros y Hy. apply filter_In in Hy.
    left. apply Hy.
  - intros x y _ Hy. apply filter_In in Hy. left. apply Hy.
Qed.

(** ** Sums and grouping *)

Lemma col_sum_Qsum c : (col_sum c == Qsum (map cell0 c))%Q.
Proof.
  induction c as [|[q|] c IH]; simpl.
  - reflexivity.
  - rewrite IH. reflexivity.
  - rewrite IH. ring.
Qed.

Lemma Qsum_perm l l' : Permutation l l' -> (Qsum l == Qsum l')%Q.
Proof.
  induction 1 as [|x l l' _ IH|x y l|l l' l'' _ IH1 _ IH2]; simpl.
  - reflexivity.
  - rewrite IH. reflexivity.
  - ring.
  - rewrite IH1. exact IH2.
Qed.

Lemma col_sum_perm c c' : Permutation c c' -> (col_sum c == col_sum c')%Q.
Proof.
  intros P. rewrite !col_sum_Qsum. apply Qsum_perm, Permutation_map, P.
Qed.

Lemma Qsum_ext {K} (f g : K -> Q) ks :
  (forall k, In k ks -> (f k == g k)%Q) ->
  (Qsum (map f ks) == Qsum (map g ks))%Q.
Proof.
  induction ks as [|k ks IH]; simpl; intros H; [reflexivity|].
  rewrite (H k (or_introl eq_refl)), IH; [reflexivity|].
  intros k' Hk'. apply H. right. exact Hk'.
Qed.

Section Grouping.
Context {K : Type}.
Variable eqb : K -> K -> bool.
Hypothesis eqb_eq : forall x y, eqb x y = true <-> x = y.

Lemma uniq_In x l : In x (uniq eqb l) <-> In x l.
Proof.
  induction l as [|y l IH]; simpl; [tauto|].
  rewrite filter_In, IH, negb_true_iff. split.
  - intros [H|[H _]]; auto.
  - intros [H|H]; [left; exact H|].
    destruct (eqb y x) eqn:E; [left; apply eqb_eq, E|right; auto].
Qed.

Lemma uniq_NoDup l : NoDup (uniq eqb l).
Proof.
  induction l as [|y l IH]; simpl; constructor.
  - rewrite filter_In. intros [_ H].
    assert (E : eqb y y = true) by (apply eqb_eq; reflexivity).
    rewrite E in H. discriminate.
  - apply NoDup_filter, IH.
Qed.

(** Adding [c] to the term of the one key [k0] adds [c] to the sum. *)
Lemma Qsum_bump (f : K -> Q) (c : Q) k0 ks :
  NoDup ks ->
  (Qsum (map (fun k => if eqb k k0 then c + f k else f k) ks)
   == (if existsb (fun k => eqb k k0) ks then c else 0) + Qsum (map f ks))%Q.
Proof.
  induction 1 as [|k ks Hk _ IH]; simpl; [ring|].
  rewrite IH. destruct (eqb k k0) eqn:E; simpl.
  - apply eqb_eq in E. subst k0.
    destruct (existsb (fun k' => eqb k' k) ks) eqn:X.
    + apply existsb_exists in X. destruct X as (k' & Hk' & E').
      apply eqb_eq in E'. subst k'. contradiction.
    + ring.
  - ring.
Qed.

Variable key : Row -> option K.
Variable val : Row -> option Q.

(** The group sums over a duplicate-free list of keys that covers the
    frame add up to the sum over the rows that have a key. *)
Lemma group_totals_sum ks t :
  NoDup ks ->
  (forall r k, In r t -> key r = Some k -> In k ks) ->
  (Qsum (map (group_total eqb key val t) ks)
   == col_sum (map val (filter (has_key key) t)))%Q.
Proof.
  intros ND. induction t as [|r t IH]; intros Cov.
  - simpl. clear ND Cov.
    induction ks as [|k ks IHk]; [reflexivity|].
    change (0 + Qsum (map (group_total eqb key val []) ks) == 0)%Q.
    rewrite IHk. ring.
  - assert (IH' := IH (fun r' k H => Cov r' k (or_intror H))).
    simpl filter. unfold has_key at 1.
    destruct (key r) as [k0|] eqn:E.
    + rewrite (Qsum_ext (group_total eqb key val (r :: t))
                 (fun k => if eqb k k0
                           then (cell0 (val r) + group_total eqb key val t k)%Q
                           else group_total eqb key val t k)).
      * rewrite Qsum_bump by exact ND.
        assert (X : existsb (fun k => eqb k k0) ks = true).
        { apply existsb_exists. exists k0. split.
          - apply (Cov r k0); [left; reflexivity|exact E].
          - apply eqb_eq. reflexivity. }
        rewrite X, IH'. simpl. destruct (val r); simpl; ring.
      * intros k _. unfold group_total. simpl. rewrite E. simpl.
        destruct (eqb k k0); simpl; [|reflexivity].
        destruct (val r); simpl; ring.
    + rewrite <- IH'. apply Qsum_ext. intros k _.
      unfold group_total. simpl. rewrite E. reflexivity.
Qed.

Lemma cat_somes_In k (t : frame) :
  In k (cat_somes (map key t)) <-> exists r, In r t /\ key r = Some k.
Proof.
  induction t as [|r t IH]; simpl.
  - split; [contradiction|intros (r & [] & _)].
  - destruct (key r) as [k'|] eqn:E; simpl; rewrite IH; split.
    + intros [->|(r' & H & H')]; [exists r; auto|exists r'; auto].
    + intros (r' & [->|H] & H'); [left; congruence|right; exists r'; auto].
    + intros (r' & H & H'). exists r'; auto.
    + intros (r' & [->|H] & H'); [congruence|exists r'; auto].
Qed.

Variable leb : K -> K -> bool.

(** [sum(grouped[val])] is the sum of [val] over the rows with a key. *)
Lemma groupby_sum_total t :
  (col_sum (map (fun p => Some (snd p)) (groupby_sum eqb leb key val t))
   == col_sum (map val (filter (has_key key) t)))%Q.
Proof.
  unfold groupby_sum. rewrite col_sum_Qsum, !map_map. simpl.
  set (ks := uniq eqb (cat_somes (map key t))).
  rewrite <- (Qsum_perm _ _ (Permutation_map _ (isort_perm leb ks))).
  apply group_totals_sum.
  - apply uniq_NoDup.
  - intros r k Hr Hk. apply uniq_In, cat_somes_In. exists r. auto.
Qed.
End Grouping.

(** ** The filter stage *)

Lemma str_mem_In s l : str_mem s l = true <-> In s l.
Proof.
  unfold str_mem. rewrite existsb_exists. split.
  - intros (x & Hx & E). apply String.eqb_eq in E. subst. exact Hx.
  - intros H. exists s. split; [exact H|apply String.eqb_refl].
Qed.

Lemma year_between y a b :
  year_ge y a && year_le y b = true <-> exists v, y = Some v /\ a <= v <= b.
Proof.
  destruct y as [v|]; simpl.
  - rewrite andb_true_iff, !Z.leb_le. split.
    + intros H. exists v. split; [reflexivity|lia].
    + intros (v' & E & H). injection E as ->. lia.
  - split; [discriminate|intros (v & E & _); discriminate].
Qed.

(** C1.  With a non-empty distributor selection and a two-bound year range
    [[a; b]], [filter_data] returns, in table order, exactly the rows of
    [df] whose distributor is selected and whose year lies in [a..b], both
    ends included. *)
Theorem filter_data_both_predicates df ds a b :
  ds <> [] ->
  exists out,
    filtered df (Some ds) (Some [a; b]) = Ok out
    /\ out = filter (fun row => str_mem (Distributor row) ds
                               && (year_ge (Year row) a && year_le (Year row) b)) df
    /\ forall row,
         In row out <->
         In row df /\ In (Distributor row) ds
         /\ exists y, Year row = Some y /\ a <= y <= b.
Proof.
  intros Hds. eexists. split; [apply filtered_eq|].
  assert (E : keep (Some ds) (Some [a; b])
              = fun row => str_mem (Distributor row) ds
                           && (year_ge (Year row) a && year_le (Year row) b)).
  { unfold keep, dist_pass, year_pass. destruct ds; [contradiction|reflexivity]. }
  rewrite E. split; [reflexivity|].
  intros row. rewrite filter_In, andb_true_iff, str_mem_In, year_between.
  tauto.
Qed.

Lemma filter_data_both_predicates_witness :
  exists out,
    filtered two_movies (Some ["A"%string]) (Some [2012; 2012]) = Ok out
    /\ length out = 1%nat.
Proof.
  destruct (filter_data_both_predicates two_movies ["A"%string] 2012 2012)
    as (out & E & -> & _); [discriminate|].
  eexists. split; [exact E|reflexivity].
Defined.

(** C3.  An empty distributor selection filters like the selection of every
    distributor of the table: only the year test, if there is one,
    constrains the rows. *)
Theorem empty_selection_is_no_constraint df yr all :
  (forall row, In row df -> In (Distributor row) all) ->
  filtered df (Some []) yr = filtered df (Some all) yr
  /\ filtered df (Some []) yr = Ok (filter (year_pass yr) df).
Proof.
  intros Hall. rewrite !filtered_eq. split; [f_equal|reflexivity].
  apply filter_ext_in. intros row Hrow. unfold keep, dist_pass. simpl.
  destruct all as [|d all']; [reflexivity|]. simpl truthy. cbv iota.
  simpl py_list. rewrite (proj2 (str_mem_In _ _) (Hall row Hrow)). reflexivity.
Qed.

Lemma empty_selection_is_no_constraint_witness :
  filtered two_movies (Some []) (Some [2013; 2020])
  = filtered two_movies (Some (uniq String.eqb (map Distributor two_movies)))
      (Some [2013; 2020]).
Proof.
  apply (empty_selection_is_no_constraint two_movies (Some [2013; 2020])
           (uniq String.eqb (map Distributor two_movies))).
  intros row Hrow. apply uniq_In; [apply String.eqb_eq|].
  apply in_map, Hrow.
Defined.

Lemma filter_data_py_typed ds yr h :
  filter_data_py (sel_of ds) (range_of yr) h = filter_data ds yr h.
Proof.
  destruct ds as [[|d l]|], yr as [[|a [|b [|c l']]]|]; reflexivity.
Qed.

Lemma filter_data_py_good d y h :
  sel_bad d = false -> range_bad y = false ->
  filter_data_py d y h = filter_data (sel_as_list d) (range_as_list y) h.
Proof.
  intros Hd Hy.
  assert (D : d = sel_of (sel_as_list d) \/ d = SelStr "").
  { destruct d as [|s|l]; [left; reflexivity| |left; reflexivity].
    right. simpl in Hd. apply negb_false_iff, String.eqb_eq in Hd. congruence. }
  assert (Y : y = range_of (range_as_list y) \/ y = RangeInt 0).
  { destruct y as [|z|l]; [left; reflexivity| |left; reflexivity].
    right. simpl in Hy. apply negb_false_iff, Z.eqb_eq in Hy. congruence. }
  destruct D as [D | ->], Y as [Y | ->].
  - rewrite D, Y at 1. apply filter_data_py_typed.
  - rewrite D at 1. destruct (sel_as_list d) as [[|x l]|]; reflexivity.
  - rewrite Y at 1. destruct (range_as_list y) as [[|a [|b [|c l']]]|]; reflexivity.
  - reflexivity.
Qed.

Lemma filter_data_py_bad_selection s y h df :
  nth_error h df_ref = Some df -> s <> ""%string ->
  filter_data_py (SelStr s) y h = Raise TypeError.
Proof.
  intros H Hs. unfold filter_data_py.
  assert (H0 : copy df_ref h = Ok (length h, h ++ [df])).
  { unfold copy. rewrite (bind_ok _ _ _ _ _ (deref_ok _ _ _ H)). reflexivity. }
  rewrite (bind_ok _ _ _ _ _ H0). unfold sel_truthy.
  rewrite (proj2 (String.eqb_neq s "") Hs). reflexivity.
Qed.

Lemma filter_data_py_bad_range d z h df :
  nth_error h df_ref = Some df -> sel_bad d = false -> z <> 0 ->
  filter_data_py d (RangeInt z) h = Raise TypeError.
Proof.
  intros H Hd Hz. unfold filter_data_py.
  assert (H0 : copy df_ref h = Ok (length h, h ++ [df])).
  { unfold copy. rewrite (bind_ok _ _ _ _ _ (deref_ok _ _ _ H)). reflexivity. }
  rewrite (bind_ok _ _ _ _ _ H0).
  destruct (distributor_step (h ++ [df]) (length h) df (sel_as_list d)
              (nth_error_alloc_new h df)) as (r1 & h1 & E1 & _).
  assert (E : (if sel_truthy d
               then mask <- col_isin_py (length h) d ;; getitem_mask (length h) mask
               else ret (length h)) (h ++ [df]) = Ok (r1, h1)).
  { rewrite <- E1. destruct d as [|s|[|x l]]; try reflexivity.
    simpl in Hd. apply negb_false_iff in Hd. unfold sel_truthy.
    rewrite Hd. reflexivity. }
  rewrite (bind_ok _ _ _ _ _ E). unfold range_truthy.
  rewrite (proj2 (Z.eqb_neq z 0) Hz). reflexivity.
Qed.

Lemma filtered_py_good df d y :
  sel_bad d = false -> range_bad y = false ->
  filtered_py df d y = Ok (filter (keep (sel_as_list d) (range_as_list y)) df).
Proof.
  intros Hd Hy. rewrite <- filtered_eq. unfold filtered_py, filtered, bind.
  rewrite (filter_data_py_good d y _ Hd Hy). reflexivity.
Qed.

Lemma filtered_py_bad df d y :
  sel_bad d = true \/ range_bad y = true ->
  filtered_py df d y = Raise TypeError.
Proof.
  intros H. unfold filtered_py, bind.
  destruct (sel_bad d) eqn:Hd.
  - destruct d as [|s|l]; try discriminate. simpl in Hd.
    apply negb_true_iff, String.eqb_neq in Hd.
    rewrite (filter_data_py_bad_selection s y (init_heap df) df eq_refl Hd).
    reflexivity.
  - destruct H as [H|H]; [discriminate|].
    destruct y as [|z|l]; try discriminate. simpl in H.
    apply negb_true_iff, Z.eqb_neq in H.
    rewrite (filter_data_py_bad_range d z (init_heap df) df eq_refl Hd H).
    reflexivity.
Qed.

(** C8 (as amended).  With a selection that is [None] or a list of strings,
    a year range that is [None] or a list of integers without exactly two
    elements applies no year test: the result is that of filtering by
    distributor alone.  [filter_data] returns a frame whenever the
    selection is [None] or a list of strings and the range is [None] or a
    list of integers; it raises, and then a [TypeError], exactly on a
    non-empty bare string as selection or a non-zero bare integer as
    range. *)
Theorem malformed_year_range_degrades df ds yr :
  (yr = None \/ exists l, yr = Some l /\ length l <> 2%nat) ->
  filtered_py df (sel_of ds) (range_of yr) = filtered_py df (sel_of ds) RangeNone
  /\ filtered_py df (sel_of ds) (range_of yr) = Ok (filter (dist_pass ds) df)
  /\ (forall df' ds' yr',
        exists out, filtered_py df' (sel_of ds') (range_of yr') = Ok out)
  /\ (forall df' d y,
        filtered_py df' d y = Raise TypeError
        <-> (exists s, d = SelStr s /\ s <> ""%string)
            \/ (exists z, y = RangeInt z /\ z <> 0))
  /\ (forall df' d y e, filtered_py df' d y = Raise e -> e = TypeError).
Proof.
  intros H.
  assert (Y : forall row, year_pass yr row = true).
  { intros row. destruct H as [->|(l & -> & Hl)]; [reflexivity|].
    destruct l as [|lo [|hi [|x l]]]; simpl; try reflexivity.
    contradiction Hl. reflexivity. }
  assert (G : forall ds' yr', sel_bad (sel_of ds') = false
                              /\ range_bad (range_of yr') = false
                              /\ sel_as_list (sel_of ds') = ds'
                              /\ range_as_list (range_of yr') = yr').
  { intros [l|] [l'|]; repeat split. }
  assert (T : forall df' ds' yr',
            filtered_py df' (sel_of ds') (range_of yr')
            = Ok (filter (keep ds' yr') df')).
  { intros df' ds' yr'. destruct (G ds' yr') as (G1 & G2 & G3 & G4).
    rewrite (filtered_py_good df' _ _ G1 G2), G3, G4. reflexivity. }
  split; [|split; [|split; [|split]]].
  - change RangeNone with (range_of None). rewrite !T. f_equal.
    apply filter_ext. intros row. unfold keep. rewrite Y. reflexivity.
  - rewrite T. f_equal. apply filter_ext. intros row. unfold keep.
    rewrite Y. apply andb_true_r.
  - intros df' ds' yr'. eexists. apply T.
  - intros df' d y. split.
    + intros E. destruct (sel_bad d) eqn:Hd.
      * left. destruct d as [|s|l]; try discriminate. exists s. split; [reflexivity|].
        simpl in Hd. apply negb_true_iff, String.eqb_neq in Hd. exact Hd.
      * destruct (range_bad y) eqn:Hy.
        -- right. destruct y as [|z|l]; try discriminate.
           exists z. split; [reflexivity|].
           simpl in Hy. apply negb_true_iff, Z.eqb_neq in Hy. exact Hy.
        -- rewrite (filtered_py_good df' d y Hd Hy) in E. discriminate.
    + intros [(s & -> & Hs)|(z & -> & Hz)]; apply filtered_py_bad.
      * left. simpl. apply negb_true_iff, String.eqb_neq, Hs.
      * right. simpl. apply negb_true_iff, Z.eqb_neq, Hz.
  - intros df' d y e E. destruct (sel_bad d) eqn:Hd.
    + rewrite (filtered_py_bad df' d y (or_introl Hd)) in E. congruence.
    + destruct (range_bad y) eqn:Hy.
      * rewrite (filtered_py_bad df' d y (or_intror Hy)) in E. congruence.
      * rewrite (filtered_py_good df' d y Hd Hy) in E. discriminate.
Qed.

Lemma malformed_year_range_degrades_witness :
  filtered_py two_movies (SelList ["B"%string]) (RangeList [2012; 2013; 2014])
  = filtered_py two_movies (SelList ["B"%string]) RangeNone.
Proof.
  apply (malformed_year_range_degrades two_movies (Some ["B"%string])
           (Some [2012; 2013; 2014])).
  right. exists [2012; 2013; 2014]. split; [reflexivity|discriminate].
Defined.

(** A bare integer is a year range without two bounds, and the filter does
    not degrade to "no year test" on it: it raises.  So does a bare string
    as selection. *)
Lemma scalar_year_range_raises :
  filtered_py two_movies (SelList []) (RangeInt 2012) = Raise TypeError
  /\ filtered_py two_movies (SelList []) RangeNone = Ok two_movies
  /\ filtered_py two_movies (SelStr "A") RangeNone = Raise TypeError.
Proof. repeat split. Qed.

(** C9.  From any state in which [df] is bound, a run of [filter_data] and
    a whole run of [update_dashboard] return normally and leave every
    frame that existed, [df] first of all, as it was: the filter works on
    frames it allocates, and what it returns is not [df]. *)
Theorem source_table_unchanged h df ds yr :
  nth_error h df_ref = Some df ->
  (exists r h',
     filter_data ds yr h = Ok (r, h')
     /\ r <> df_ref
     /\ extends h h'
     /\ nth_error h' df_ref = Some df)
  /\ (exists out h',
        update_dashboard ds yr h = Ok (out, h')
        /\ extends h h'
        /\ nth_error h' df_ref = Some df).
Proof.
  intros H. split.
  - destruct (filter_data_run h df ds yr H) as (r & h' & E & Hr & X & _).
    exists r, h'. repeat split; try assumption.
    eapply extends_nth; [exact X|exact H].
  - destruct (update_dashboard_run h df ds yr H) as (h' & E & X).
    eexists. exists h'. split; [exact E|]. split; [exact X|].
    eapply extends_nth; [exact X|exact H].
Qed.

Lemma source_table_unchanged_witness :
  exists out h',
    recompute two_movies (Some ["A"%string]) (Some [2012; 2015]) = Ok (out, h')
    /\ nth_error h' df_ref = Some two_movies.
Proof.
  destruct (source_table_unchanged (init_heap two_movies) two_movies
              (Some ["A"%string]) (Some [2012; 2015]))
    as (_ & out & h' & E & _ & N); [reflexivity|].
  exists out, h'. split; [exact E|exact N].
Defined.

(** C10.  Under a two-bound year range no row without a year comes out of
    the filter, whatever the bounds; so a row without a year in the output
    means that the year range did not have two bounds. *)
Theorem null_year_excluded df ds :
  (forall a b, exists out,
     filtered df ds (Some [a; b]) = Ok out
     /\ forall row, In row out -> Year row <> None)
  /\ (forall yr out row,
        filtered df ds yr = Ok out -> In row out -> Year row = None ->
        yr = None \/ exists l, yr = Some l /\ length l <> 2%nat).
Proof.
  split.
  - intros a b. eexists. split; [apply filtered_eq|].
    intros row Hrow. apply filter_In in Hrow. destruct Hrow as [_ Hk].
    unfold keep, year_pass in Hk. apply andb_true_iff in Hk.
    destruct Hk as [_ Hk]. apply year_between in Hk.
    destruct Hk as (v & -> & _). discriminate.
  - intros yr out row E Hrow Hy. rewrite filtered_eq in E.
    injection E as <-. apply filter_In in Hrow. destruct Hrow as [_ Hk].
    destruct yr as [l|]; [right|left; reflexivity].
    exists l. split; [reflexivity|]. intros Hl.
    destruct l as [|lo [|hi [|x l]]]; try discriminate Hl.
    unfold keep, year_pass in Hk. rewrite Hy in Hk. simpl in Hk.
    rewrite andb_false_r in Hk. discriminate.
Qed.

(** ** The loader's [ROI] column *)

Lemma prepare_roi raw row :
  In row (prepare raw) -> ROI row = roi_of (Worldwide row) (Budget row).
Proof.
  unfold prepare. rewrite in_map_iff. intros (r & <- & _). reflexivity.
Qed.

Lemma filtered_rows df ds yr row :
  In row (filter (keep ds yr) df) <-> In row df /\ keep ds yr row = true.
Proof. apply filter_In. Qed.

(** C2.  In the loaded table, a row with both amounts and a non-zero budget
    has [ROI = (Worldwide - Budget) / Budget]; with a zero budget the ROI
    is NaN (0/0) or an infinity; a missing amount gives a NaN ROI.  The
    pipeline does not touch these values: a row that passes the filter
    reaches the ROI chart and the scatter data as it is, and the average
    is taken over the column as it is. *)
Theorem roi_derivation raw row :
  In row (prepare raw) ->
  (forall w b, Worldwide row = Some w -> Budget row = Some b ->
     ~ (b == 0)%Q -> ROI row = Fin ((w - b) / b))
  /\ (forall w b, Worldwide row = Some w -> Budget row = Some b ->
        (b == 0)%Q ->
        is_finite (ROI row) = false
        /\ ((w - b == 0)%Q -> ROI row = NaN)
        /\ (~ (w - b == 0)%Q -> exists s, ROI row = Inf s))
  /\ (Worldwide row = None \/ Budget row = None -> ROI row = NaN)
  /\ (forall ds yr, exists out h',
        recompute (prepare raw) ds yr = Ok (out, h')
        /\ avg_roi out = col_mean (map ROI (fig_scatter out))
        /\ (keep ds yr row = true ->
            In row (fig_scatter out) /\ In row (fig_bar_roi out))).
Proof.
  intros Hrow. pose proof (prepare_roi raw row Hrow) as E.
  split; [|split; [|split]].
  - intros w b Hw Hb Hnz. rewrite E, Hw, Hb. unfold roi_of. simpl.
    destruct (Qeq_bool b 0) eqn:Z; [|reflexivity].
    apply Qeq_bool_iff in Z. contradiction.
  - intros w b Hw Hb Hz. rewrite E, Hw, Hb. unfold roi_of. simpl.
    rewrite (proj2 (Qeq_bool_iff b 0) Hz).
    destruct (Qeq_bool (w - b) 0) eqn:N.
    + split; [reflexivity|split; [reflexivity|]].
      intros Hn. apply Qeq_bool_iff in N. contradiction.
    + split; [reflexivity|split].
      * intros Hn. apply Qeq_bool_iff in Hn. congruence.
      * intros _. eexists. reflexivity.
  - intros [H|H]; rewrite E, H; unfold roi_of; simpl;
      [reflexivity|destruct (Worldwide row); reflexivity].
  - intros ds yr.
    destruct (recompute_run (prepare raw) ds yr) as (h' & R).
    eexists. exists h'. split; [exact R|]. split; [reflexivity|].
    intros Hk. simpl.
    assert (I : In row (filter (keep ds yr) (prepare raw)))
      by (apply filtered_rows; auto).
    split; [exact I|].
    eapply Permutation_in; [apply sort_values_desc_perm|exact I].
Qed.

Lemma roi_derivation_witness :
  is_finite (ROI (prepare_row free_movie)) = false
  /\ ROI (prepare_row (movie "First" "A" 2012 100 300)) = Fin ((300 - 100) / 100).
Proof.
  split.
  - destruct (roi_derivation [free_movie] (prepare_row free_movie))
      as (_ & H & _); [left; reflexivity|].
    destruct (H 50%Q 0%Q) as [E _]; [reflexivity|reflexivity|reflexivity|].
    exact E.
  - destruct (roi_derivation [movie "First" "A" 2012 100 300]
                (prepare_row (movie "First" "A" 2012 100 300)))
      as (H & _); [left; reflexivity|].
    apply H; [reflexivity|reflexivity|discriminate].
Defined.

(** An infinite ROI is not skipped by the average. *)
Example infinite_roi_reaches_average :
  exists out h',
    recompute (prepare [free_movie; movie "First" "A" 2012 100 300]) None None
    = Ok (out, h')
    /\ avg_roi out = Inf false.
Proof. eexists. eexists. split; reflexivity. Qed.

(** ** The aggregation stage *)

(** The two-movie scenario: the year range 2012..2012 keeps the first
    movie alone. *)
Example two_movies_2012 :
  exists out h',
    recompute two_movies (Some []) (Some [2012; 2012]) = Ok (out, h')
    /\ map Title (fig_scatter out) = ["First"%string]
    /\ (total_worldwide out == 300)%Q
    /\ (exists q, avg_roi out = Fin q /\ (q == 2)%Q)
    /\ movie_count out = 1%nat.
Proof.
  eexists. eexists. split; [reflexivity|]. simpl.
  repeat split. eexists. split; reflexivity.
Qed.

Lemma groupby_sum_keys {K} (eqb leb : K -> K -> bool) key val t :
  map fst (groupby_sum eqb leb key val t)
  = isort leb (uniq eqb (cat_somes (map key t))).
Proof.
  unfold groupby_sum. rewrite map_map. simpl. apply map_id.
Qed.

Lemma groups_partition {K} (eqb : K -> K -> bool) (key : Row -> K) ks :
  (forall x y, eqb x y = true <-> x = y) ->
  NoDup ks ->
  forall t,
    (forall r, In r t -> In (key r) ks) ->
    Permutation t (concat (map (fun k => filter (fun r => eqb k (key r)) t) ks)).
Proof.
  intros Heq ND. induction ND as [|k ks Hk ND IH]; intros t Cov.
  - destruct t as [|r t]; [constructor|]. destruct (Cov r (or_introl eq_refl)).
  - cbn [map concat].
    set (p := fun r => eqb k (key r)).
    rewrite (filter_partition_perm p t) at 1.
    rewrite Permutation_app_comm. apply Permutation_app_head.
    rewrite (IH (filter (fun x => negb (p x)) t)).
    + apply Permutation_refl'. f_equal. apply map_ext_in. intros k' Hk'.
      rewrite filter_filter. apply filter_ext. intros r. unfold p.
      destruct (eqb k' (key r)) eqn:E'; [|apply andb_false_r].
      apply Heq in E'. destruct (eqb k (key r)) eqn:E; [|reflexivity].
      apply Heq in E. congruence.
    + intros r Hr. apply filter_In in Hr. destruct Hr as [Hr Hn].
      destruct (Cov r Hr) as [E|H]; [|exact H].
      unfold p in Hn. rewrite <- E in Hn.
      rewrite (proj2 (Heq k k) eq_refl) in Hn. discriminate.
Qed.

Lemma by_distributor_exact_sum dff :
  (col_sum (map (fun p => Some (snd p)) (outputs_of dff).(fig_bar_dist))
   == col_sum (map Worldwide dff))%Q.
Proof.
  cbn [fig_bar_dist outputs_of].
  rewrite <- (col_sum_perm _ _
                (Permutation_map _ (sort_values_desc_perm _ _))).
  rewrite (groupby_sum_total String.eqb String.eqb_eq).
  unfold has_key. rewrite filter_true. reflexivity.
Qed.

(** C4 (as amended).  The lines of the per-distributor table split the
    filtered frame: every row belongs to the line of its distributor and to
    no other.  So the table and the [total_worldwide] KPI add up the same
    [Worldwide] cells, and the exact sums of these cells are equal.  (The
    float64 numbers pandas computes for them need not be: see the five
    movies after the proof.) *)
Theorem by_distributor_same_cells df ds yr :
  exists out dff h',
    recompute df ds yr = Ok (out, h')
    /\ filtered df ds yr = Ok dff
    /\ Permutation dff
         (concat (map (fun line =>
                         filter (fun r => String.eqb (fst line) (Distributor r)) dff)
                      (fig_bar_dist out)))
    /\ (col_sum (map (fun p => Some (snd p)) (fig_bar_dist out))
        == total_worldwide out)%Q.
Proof.
  destruct (recompute_run df ds yr) as (h' & R).
  eexists. exists (filter (keep ds yr) df), h'.
  split; [exact R|]. split; [apply filtered_eq|].
  set (dff := filter (keep ds yr) df). split.
  - cbn [fig_bar_dist outputs_of].
    set (g := groupby_sum String.eqb String.leb
                (fun r => Some (Distributor r)) Worldwide dff).
    set (bars := sort_values_desc (fun p : string * Q => Fin (snd p)) g).
    assert (P : Permutation (map fst g) (map fst bars))
      by apply Permutation_map, sort_values_desc_perm.
    rewrite <- (map_map fst (fun k => filter (fun r => String.eqb k (Distributor r)) dff)).
    apply (groups_partition String.eqb Distributor (map fst bars) String.eqb_eq).
    + eapply Permutation_NoDup; [exact P|].
      unfold g. rewrite groupby_sum_keys.
      eapply Permutation_NoDup; [apply isort_perm|].
      apply uniq_NoDup, String.eqb_eq.
    + intros r Hr. apply (Permutation_in _ P).
      unfold g. rewrite groupby_sum_keys.
      apply (Permutation_in _ (isort_perm _ _)).
      apply (uniq_In String.eqb String.eqb_eq).
      apply (cat_somes_In (fun r => Some (Distributor r))).
      exists r. split; [exact Hr|reflexivity].
  - apply by_distributor_exact_sum.
Qed.

(** In float64 the claim fails.  Five amounts of two distributors:
    [Series.sum()] gives 3332.7 for the column, the [groupby] sums are
    1839.3000000000002 and 1493.4, and [Series.sum()] of these two is
    3332.7000000000003. *)
Lemma float64_bars_do_not_add_up :
  total_worldwide_f64 five_movies_f64 = tenths 33327
  /\ groupby_sum_f64 five_movies_f64
     = [("A"%string, PrimFloat.add (tenths 6239) (tenths 12154));
        ("B"%string, tenths 14934)]
  /\ PrimFloat.eqb (PrimFloat.add (tenths 6239) (tenths 12154)) (tenths 18393)
     = false
  /\ PrimFloat.eqb (bars_total_f64 five_movies_f64)
       (total_worldwide_f64 five_movies_f64)
     = false.
Proof. repeat split; vm_compute; reflexivity. Qed.

(** C5.  When the filter matches no row the callback still returns: both
    sums are 0, the average ROI is NaN, no movie is counted, and the two
    grouped tables and the top-10 table are empty. *)
Theorem empty_subset_aggregates df ds yr :
  filtered df ds yr = Ok [] ->
  exists out h',
    recompute df ds yr = Ok (out, h')
    /\ total_worldwide out = 0%Q
    /\ total_budget out = 0%Q
    /\ avg_roi out = NaN
    /\ movie_count out = 0%nat
    /\ fig_bar_dist out = []
    /\ fig_line_year out = []
    /\ fig_top10 out = [].
Proof.
  intros E. rewrite filtered_eq in E. injection E as E.
  destruct (recompute_run df ds yr) as (h' & R).
  eexists. exists h'. split; [exact R|]. rewrite E.
  repeat split; reflexivity.
Qed.

Lemma empty_subset_aggregates_witness :
  exists out h',
    recompute two_movies (Some []) (Some [1990; 1999]) = Ok (out, h')
    /\ total_worldwide out = 0%Q /\ movie_count out = 0%nat.
Proof.
  destruct (empty_subset_aggregates two_movies (Some []) (Some [1990; 1999]))
    as (out & h' & R & T & _ & _ & C & _); [reflexivity|].
  exists out, h'. auto.
Defined.

Lemma desc_by_worldwide x y :
  desc_by (fun r => cell_val (Worldwide r)) x y ->
  no_greater (Worldwide y) (Worldwide x).
Proof.
  unfold desc_by, no_greater.
  destruct (Worldwide y) as [b|], (Worldwide x) as [a|]; simpl; auto.
  - intros [H|H]; [discriminate|apply Qle_bool_iff, H].
  - intros [H|H]; discriminate.
Qed.

(** C6.  The top-10 table has at most 10 rows, all of them rows of the
    filtered frame, in decreasing [Worldwide] order (rows without a value
    last), and no row left out has a greater [Worldwide] than a row kept. *)
Theorem top10_worldwide_properties df ds yr :
  exists out dff h',
    recompute df ds yr = Ok (out, h')
    /\ filtered df ds yr = Ok dff
    /\ (length (fig_top10 out) <= 10)%nat
    /\ (forall row, In row (fig_top10 out) -> In row dff)
    /\ StronglySorted (fun x y => no_greater (Worldwide y) (Worldwide x))
         (fig_top10 out)
    /\ exists omitted,
         Permutation dff (fig_top10 out ++ omitted)
         /\ forall i o, In i (fig_top10 out) -> In o omitted ->
              no_greater (Worldwide o) (Worldwide i).
Proof.
  destruct (recompute_run df ds yr) as (h' & R).
  eexists. exists (filter (keep ds yr) df), h'.
  split; [exact R|]. split; [apply filtered_eq|].
  unfold outputs_of. cbn [fig_top10].
  set (dff := filter (keep ds yr) df).
  set (key := fun r : Row => cell_val (Worldwide r)).
  pose proof (sort_values_desc_perm key dff) as P.
  pose proof (sort_values_desc_sorted key dff) as S.
  rewrite <- (firstn_skipn 10 (sort_values_desc key dff)) in P, S.
  split; [apply firstn_le_length|]. split; [|split].
  - intros row Hrow. eapply Permutation_in; [symmetry; exact P|].
    apply in_or_app. left. exact Hrow.
  - apply StronglySorted_weaken with (R := desc_by key);
      [intros x y; apply desc_by_worldwide|].
    clear P. revert S.
    generalize (firstn 10 (sort_values_desc key dff)) as l1.
    induction l1 as [|x l1 IH]; simpl; intros S; [constructor|].
    inversion S as [|? ? S' F]; subst. constructor; [apply IH, S'|].
    apply Forall_app in F. apply F.
  - exists (skipn 10 (sort_values_desc key dff)). split; [exact P|].
    intros i o Hi Ho. apply desc_by_worldwide.
    eapply StronglySorted_app_inv; eassumption.
Qed.

(** C7.  The ROI chart data is the whole filtered frame, reordered: a
    permutation of it in decreasing [ROI] order, the rows whose ROI is NaN
    last. *)
Theorem by_roi_sorted_permutation df ds yr :
  exists out dff h',
    recompute df ds yr = Ok (out, h')
    /\ filtered df ds yr = Ok dff
    /\ Permutation dff (fig_bar_roi out)
    /\ length (fig_bar_roi out) = length dff
    /\ StronglySorted (desc_by ROI) (fig_bar_roi out).
Proof.
  destruct (recompute_run df ds yr) as (h' & R).
  eexists. exists (filter (keep ds yr) df), h'.
  split; [exact R|]. split; [apply filtered_eq|]. simpl.
  split; [apply sort_values_desc_perm|]. split.
  - symmetry. apply Permutation_length, sort_values_desc_perm.
  - apply sort_values_desc_sorted.
Qed.

(** * Further properties of the pipeline *)

Lemma covering_selection df yr all :
  (forall row, In row df -> In (Distributor row) all) ->
  filtered df (Some all) yr = filtered df (Some []) yr.
Proof.
  intros Hall. rewrite !filtered_eq. f_equal.
  apply filter_ext_in. intros row Hrow. unfold keep, dist_pass.
  destruct all as [|d all']; [reflexivity|]. simpl truthy. cbv iota.
  simpl py_list. rewrite (proj2 (str_mem_In _ _) (Hall row Hrow)). reflexivity.
Qed.

(** ** More on [filter_data] *)

Lemma filter_none {A} (p : A -> bool) l :
  (forall x, In x l -> p x = false) -> filter p l = [].
Proof.
  induction l as [|x l IH]; simpl; intros H; [reflexivity|].
  rewrite (H x (or_introl eq_refl)). apply IH.
  intros y Hy. apply H. right. exact Hy.
Qed.

(** X1.  A year range whose lower bound is above its upper bound selects
    nothing: the filter returns an empty frame, it does not raise. *)
Theorem inverted_range_is_empty df ds a b :
  b < a -> filtered df ds (Some [a; b]) = Ok [].
Proof.
  intros Hab. rewrite filtered_eq. f_equal. apply filter_none.
  intros row _. unfold keep, year_pass.
  destruct (year_ge (Year row) a && year_le (Year row) b) eqn:E.
  - apply year_between in E. destruct E as (v & _ & Hv). lia.
  - apply andb_false_r.
Qed.

Lemma inverted_range_is_empty_witness :
  filtered two_movies (Some ["A"%string]) (Some [2015; 2012]) = Ok [].
Proof. apply (inverted_range_is_empty two_movies (Some ["A"%string]) 2015 2012). lia. Defined.

Lemma truthy_py_list {A} (v : option (list A)) :
  truthy v = match py_list v with [] => false | _ :: _ => true end.
Proof. destruct v as [[|x l]|]; reflexivity. Qed.

(** X2.  Only the members of the distributor selection matter: two
    selections with the same members, in any order and with any repeats,
    [None] counting as the empty list, give the same frame. *)
Theorem selection_is_a_set df ds1 ds2 yr :
  (forall d, In d (py_list ds1) <-> In d (py_list ds2)) ->
  filtered df ds1 yr = filtered df ds2 yr.
Proof.
  intros H. rewrite !filtered_eq. f_equal. apply filter_ext. intros row.
  unfold keep, dist_pass. f_equal. rewrite !truthy_py_list.
  destruct (py_list ds1) as [|d1 l1] eqn:E1, (py_list ds2) as [|d2 l2] eqn:E2.
  - reflexivity.
  - destruct (proj2 (H d2) (or_introl eq_refl)).
  - destruct (proj1 (H d1) (or_introl eq_refl)).
  - destruct (str_mem (Distributor row) (d1 :: l1)) eqn:M1.
    + symmetry. apply str_mem_In, H, str_mem_In, M1.
    + destruct (str_mem (Distributor row) (d2 :: l2)) eqn:M2; [|reflexivity].
      apply str_mem_In, H, str_mem_In in M2. congruence.
Qed.

Lemma selection_is_a_set_witness :
  filtered two_movies (Some ["B"; "A"; "B"]%string) None
  = filtered two_movies (Some ["A"; "B"]%string) None.
Proof.
  apply (selection_is_a_set two_movies (Some ["B"; "A"; "B"]%string)
           (Some ["A"; "B"]%string) None).
  intros d. simpl. tauto.
Defined.

Lemma filter_split_perm {A} (p q r : A -> bool) l :
  (forall x, p x = q x || r x) ->
  (forall x, q x && r x = false) ->
  Permutation (filter p l) (filter q l ++ filter r l).
Proof.
  intros Hp Hd. induction l as [|x l IH]; simpl; [constructor|].
  rewrite Hp. specialize (Hd x).
  destruct (q x), (r x); simpl in *; try discriminate.
  - constructor. exact IH.
  - apply Permutation_cons_app. exact IH.
  - exact IH.
Qed.

(** X3.  Two adjacent year ranges split the rows of the range they cover:
    the rows kept for [a..b] are those kept for [a..m] together with those
    kept for [m+1..b], and no row is kept for both parts. *)
Theorem adjacent_ranges_split_rows df ds a m b :
  a - 1 <= m <= b ->
  exists whole lo hi,
    filtered df ds (Some [a; b]) = Ok whole
    /\ filtered df ds (Some [a; m]) = Ok lo
    /\ filtered df ds (Some [m + 1; b]) = Ok hi
    /\ Permutation whole (lo ++ hi)
    /\ length whole = (length lo + length hi)%nat
    /\ forall row, In row lo -> In row hi -> False.
Proof.
  intros Hm. do 3 eexists. rewrite !filtered_eq.
  split; [reflexivity|]. split; [reflexivity|]. split; [reflexivity|].
  assert (P : Permutation (filter (keep ds (Some [a; b])) df)
                (filter (keep ds (Some [a; m])) df
                 ++ filter (keep ds (Some [m + 1; b])) df)).
  { apply filter_split_perm; intros row; unfold keep, year_pass;
      destruct (dist_pass ds row); simpl; try reflexivity;
      destruct (Year row) as [y|]; simpl; try reflexivity;
      destruct (Z.leb_spec a y), (Z.leb_spec y b), (Z.leb_spec y m),
        (Z.leb_spec (m + 1) y); simpl; try reflexivity; lia. }
  split; [exact P|]. split.
  - rewrite (Permutation_length P). apply length_app.
  - intros row H1 H2. apply filter_In in H1, H2.
    destruct H1 as [_ K1], H2 as [_ K2]. unfold keep, year_pass in K1, K2.
    apply andb_true_iff in K1, K2. destruct K1 as [_ K1], K2 as [_ K2].
    apply year_between in K1, K2.
    destruct K1 as (y1 & E1 & B1), K2 as (y2 & E2 & B2).
    rewrite E1 in E2. injection E2 as <-. lia.
Qed.

Lemma adjacent_ranges_split_rows_witness :
  exists whole lo hi,
    filtered two_movies None (Some [2010; 2020]) = Ok whole
    /\ filtered two_movies None (Some [2010; 2013]) = Ok lo
    /\ filtered two_movies None (Some [2013 + 1; 2020]) = Ok hi
    /\ Permutation whole (lo ++ hi).
Proof.
  destruct (adjacent_ranges_split_rows two_movies None 2010 2013 2020)
    as (whole & lo & hi & F1 & F2 & F3 & P & _); [lia|].
  exists whole, lo, hi. auto.
Defined.

(** ** More on [update_dashboard] *)

(** X4.  Callbacks do not influence one another: after any earlier
    callback, a callback returns the outputs it would return in a fresh
    process. *)
Theorem callbacks_are_independent h df ds1 yr1 out1 h1 ds2 yr2 :
  nth_error h df_ref = Some df ->
  update_dashboard ds1 yr1 h = Ok (out1, h1) ->
  exists out2 h2 h2',
    update_dashboard ds2 yr2 h1 = Ok (out2, h2)
    /\ recompute df ds2 yr2 = Ok (out2, h2').
Proof.
  intros H R1.
  destruct (update_dashboard_run h df ds1 yr1 H) as (h1' & E1 & X1).
  rewrite E1 in R1. injection R1 as _ <-.
  pose proof (extends_nth _ _ _ _ X1 H) as H1.
  destruct (update_dashboard_run h1' df ds2 yr2 H1) as (h2 & E2 & _).
  destruct (recompute_run df ds2 yr2) as (h2' & E3).
  eexists. exists h2, h2'. split; [exact E2|exact E3].
Qed.

Lemma callbacks_are_independent_witness :
  exists out1 h1 out2 h2 h2',
    recompute two_movies (Some ["A"%string]) None = Ok (out1, h1)
    /\ update_dashboard (Some ["B"%string]) (Some [2015; 2015]) h1 = Ok (out2, h2)
    /\ recompute two_movies (Some ["B"%string]) (Some [2015; 2015]) = Ok (out2, h2').
Proof.
  destruct (recompute_run two_movies (Some ["A"%string]) None) as (h1 & R1).
  destruct (callbacks_are_independent (init_heap two_movies) two_movies
              (Some ["A"%string]) None _ h1
              (Some ["B"%string]) (Some [2015; 2015]) eq_refl R1)
    as (out2 & h2 & h2' & E2 & E3).
  eexists. exists h1, out2, h2, h2'. split; [exact R1|]. split; assumption.
Defined.

(** *** The grouped tables *)

Lemma groupby_sum_In {K} (eqb leb : K -> K -> bool) key val t k s :
  (forall x y, eqb x y = true <-> x = y) ->
  In (k, s) (groupby_sum eqb leb key val t)
  <-> (exists r, In r t /\ key r = Some k) /\ s = group_total eqb key val t k.
Proof.
  intros Heq. unfold groupby_sum. rewrite in_map_iff. split.
  - intros (k' & E & Hk). injection E as -> <-. split; [|reflexivity].
    apply (cat_somes_In key). apply (uniq_In eqb Heq).
    eapply Permutation_in; [symmetry; apply isort_perm|exact Hk].
  - intros [Hr ->]. exists k. split; [reflexivity|].
    eapply Permutation_in; [apply isort_perm|].
    apply (uniq_In eqb Heq), (cat_somes_In key), Hr.
Qed.

Lemma groupby_sum_NoDup {K} (eqb leb : K -> K -> bool) key val t :
  (forall x y, eqb x y = true <-> x = y) ->
  NoDup (map fst (groupby_sum eqb leb key val t)).
Proof.
  intros Heq. rewrite groupby_sum_keys.
  eapply Permutation_NoDup; [apply isort_perm|]. apply uniq_NoDup, Heq.
Qed.

Lemma bar_dist_In dff d s :
  In (d, s)
     (sort_values_desc (fun p : string * Q => Fin (snd p))
        (groupby_sum String.eqb String.leb
           (fun r => Some (Distributor r)) Worldwide dff))
  <-> (exists row, In row dff /\ Distributor row = d)
      /\ s = col_sum (map Worldwide
                (filter (fun r => String.eqb d (Distributor r)) dff)).
Proof.
  set (g := groupby_sum String.eqb String.leb
              (fun r => Some (Distributor r)) Worldwide dff).
  pose proof (sort_values_desc_perm (fun p : string * Q => Fin (snd p)) g) as P.
  split.
  - intros H. apply (Permutation_in _ (Permutation_sym P)) in H.
    apply groupby_sum_In in H; [|apply String.eqb_eq].
    destruct H as [(row & Hrow & E) ->]. split; [|reflexivity].
    exists row. split; [exact Hrow|congruence].
  - intros [(row & Hrow & E) ->]. apply (Permutation_in _ P).
    apply groupby_sum_In; [apply String.eqb_eq|]. split; [|reflexivity].
    exists row. split; [exact Hrow|congruence].
Qed.

(** X5.  The per-distributor table has one line per distributor of the
    filtered frame and no other line; the line of a distributor carries the
    sum of the [Worldwide] values of its rows; the lines come in decreasing
    order of that sum. *)
Theorem by_distributor_table df ds yr :
  exists out dff h',
    recompute df ds yr = Ok (out, h')
    /\ filtered df ds yr = Ok dff
    /\ NoDup (map fst (fig_bar_dist out))
    /\ (forall d s,
          In (d, s) (fig_bar_dist out)
          <-> (exists row, In row dff /\ Distributor row = d)
              /\ s = col_sum (map Worldwide
                        (filter (fun r => String.eqb d (Distributor r)) dff)))
    /\ StronglySorted (fun p q => (snd q <= snd p)%Q) (fig_bar_dist out).
Proof.
  destruct (recompute_run df ds yr) as (h' & R).
  eexists. exists (filter (keep ds yr) df), h'.
  split; [exact R|]. split; [apply filtered_eq|].
  unfold outputs_of. cbn [fig_bar_dist].
  set (dff := filter (keep ds yr) df).
  set (g := groupby_sum String.eqb String.leb
              (fun r => Some (Distributor r)) Worldwide dff).
  pose proof (sort_values_desc_perm (fun p : string * Q => Fin (snd p)) g) as P.
  split; [|split].
  - eapply Permutation_NoDup; [apply Permutation_map, P|].
    apply groupby_sum_NoDup, String.eqb_eq.
  - intros d s. apply bar_dist_In.
  - eapply StronglySorted_weaken; [|apply sort_values_desc_sorted].
    intros p q [H|H]; [discriminate|]. apply Qle_bool_iff, H.
Qed.

Lemma StronglySorted_le_lt l :
  StronglySorted Z.le l -> NoDup l -> StronglySorted Z.lt l.
Proof.
  induction 1 as [|x l S IH F]; intros ND; constructor.
  - apply IH. inversion ND; assumption.
  - inversion ND as [|? ? Hx _]; subst. rewrite Forall_forall in *.
    intros y Hy. specialize (F y Hy).
    assert (x <> y) by (intros ->; contradiction). lia.
Qed.

(** X6.  The per-year table has one line per year of the filtered frame and
    no other line, in strictly increasing year order, each carrying the sum
    of the [Worldwide] cells of the rows of that year. *)
Theorem by_year_table df ds yr :
  exists out dff h',
    recompute df ds yr = Ok (out, h')
    /\ filtered df ds yr = Ok dff
    /\ StronglySorted Z.lt (map fst (fig_line_year out))
    /\ (forall y s,
          In (y, s) (fig_line_year out)
          <-> (exists row, In row dff /\ Year row = Some y)
              /\ s = col_sum (map Worldwide
                        (filter (fun r => key_is Z.eqb y (Year r)) dff))).
Proof.
  destruct (recompute_run df ds yr) as (h' & R).
  eexists. exists (filter (keep ds yr) df), h'.
  split; [exact R|]. split; [apply filtered_eq|].
  unfold outputs_of. cbn [fig_line_year].
  set (dff := filter (keep ds yr) df).
  split.
  - apply StronglySorted_le_lt; [|apply groupby_sum_NoDup, Z.eqb_eq].
    rewrite groupby_sum_keys.
    apply StronglySorted_weaken with (R := fun a b => Z.leb a b = true);
      [intros x y; apply Z.leb_le|].
    apply isort_sorted with (dom := fun _ => True).
    + intros x y z H1 H2. apply Z.leb_le. apply Z.leb_le in H1, H2. lia.
    + intros x y _ _ H. apply Z.leb_le. apply Z.leb_gt in H. lia.
    + apply Forall_forall. intros; exact I.
  - intros y s. apply groupby_sum_In, Z.eqb_eq.
Qed.

(** X7.  Under a two-bound year range every filtered row has a year and
    that year has a line in the per-year table, so no row is left out of
    the line chart; and every year of the table lies within the bounds. *)
Theorem by_year_under_range df ds a b :
  exists out dff h',
    recompute df ds (Some [a; b]) = Ok (out, h')
    /\ filtered df ds (Some [a; b]) = Ok dff
    /\ (forall row, In row dff ->
          exists y, Year row = Some y /\ In y (map fst (fig_line_year out)))
    /\ forall y, In y (map fst (fig_line_year out)) -> a <= y <= b.
Proof.
  destruct (recompute_run df ds (Some [a; b])) as (h' & R).
  exists (outputs_of (filter (keep ds (Some [a; b])) df)),
         (filter (keep ds (Some [a; b])) df), h'.
  split; [exact R|]. split; [apply filtered_eq|].
  assert (Y : forall row, In row (filter (keep ds (Some [a; b])) df) ->
                exists v, Year row = Some v /\ a <= v <= b).
  { intros row Hrow. apply filter_In in Hrow. destruct Hrow as [_ Hk].
    unfold keep, year_pass in Hk. apply andb_true_iff in Hk.
    apply year_between, Hk. }
  cbn [fig_line_year outputs_of]. split.
  - intros row Hrow. destruct (Y row Hrow) as (v & E & _).
    exists v. split; [exact E|]. rewrite groupby_sum_keys.
    apply (Permutation_in _ (isort_perm _ _)).
    apply (uniq_In Z.eqb Z.eqb_eq), (cat_somes_In Year).
    exists row. auto.
  - intros y Hy. apply in_map_iff in Hy. destruct Hy as ([y' s] & <- & Hp).
    apply (groupby_sum_In Z.eqb Z.leb) in Hp; [|apply Z.eqb_eq].
    destruct Hp as [(row & Hrow & E) _].
    destruct (Y row Hrow) as (v & E' & Hv). simpl. congruence.
Qed.

(** *** The remaining KPIs *)

Lemma col_max_none c : col_max c = None <-> forall x, In x c -> x = None.
Proof.
  induction c as [|[q|] c IH]; simpl.
  - split; [intros _ x []|reflexivity].
  - split.
    + destruct (col_max c) as [m|]; [destruct (Qle_bool q m)|]; discriminate.
    + intros H. discriminate (H (Some q) (or_introl eq_refl)).
  - rewrite IH. split.
    + intros H x [<-|Hx]; [reflexivity|apply H, Hx].
    + intros H x Hx. apply H. right. exact Hx.
Qed.

Lemma col_max_some c m :
  col_max c = Some m ->
  In (Some m) c /\ forall q, In (Some q) c -> (q <= m)%Q.
Proof.
  revert m. induction c as [|[q|] c IH]; simpl; intros m H.
  - discriminate.
  - destruct (col_max c) as [m'|] eqn:E.
    + destruct (IH m' eq_refl) as [Hin Hle].
      destruct (Qle_bool q m') eqn:L; injection H as <-.
      * apply Qle_bool_iff in L. split; [right; exact Hin|].
        intros q' [E'|Hq']; [injection E' as <-; exact L|apply Hle, Hq'].
      * assert (L' : (m' <= q)%Q).
        { destruct (Qlt_le_dec m' q) as [X|X]; [apply Qlt_le_weak, X|].
          apply Qle_bool_iff in X. congruence. }
        split; [left; reflexivity|].
        intros q' [E'|Hq']; [injection E' as <-; apply Qle_refl|].
        eapply Qle_trans; [apply Hle, Hq'|exact L'].
    + injection H as <-. split; [left; reflexivity|].
      intros q' [E'|Hq']; [injection E' as <-; apply Qle_refl|].
      apply (proj1 (col_max_none c) E) in Hq'. discriminate.
  - destruct (IH m H) as [Hin Hle]. split; [right; exact Hin|].
    intros q [E|Hq]; [discriminate|apply Hle, Hq].
Qed.

(** X8.  The highest-opening KPI is NaN exactly when no filtered row has an
    opening value; otherwise it is the opening value of some filtered row
    and no filtered row has a greater one. *)
Theorem max_opening_is_maximum df ds yr :
  exists out dff h',
    recompute df ds yr = Ok (out, h')
    /\ filtered df ds yr = Ok dff
    /\ (max_opening out = None
        <-> forall row, In row dff -> OpeningWeekendNorthAmerica row = None)
    /\ (forall m, max_opening out = Some m ->
          (exists row, In row dff /\ OpeningWeekendNorthAmerica row = Some m)
          /\ forall row q, In row dff ->
               OpeningWeekendNorthAmerica row = Some q -> (q <= m)%Q).
Proof.
  destruct (recompute_run df ds yr) as (h' & R).
  eexists. exists (filter (keep ds yr) df), h'.
  split; [exact R|]. split; [apply filtered_eq|].
  cbn [max_opening outputs_of]. set (dff := filter (keep ds yr) df).
  split.
  - rewrite col_max_none. split.
    + intros H row Hrow. apply H, in_map, Hrow.
    + intros H x Hx. apply in_map_iff in Hx.
      destruct Hx as (row & <- & Hrow). apply H, Hrow.
  - intros m Hm. apply col_max_some in Hm. destruct Hm as [Hin Hle]. split.
    + apply in_map_iff in Hin. destruct Hin as (row & E & Hrow).
      exists row. auto.
    + intros row q Hrow E. apply Hle. rewrite <- E. apply in_map, Hrow.
Qed.

(** X9.  The movie count is the number of distinct titles of the filtered
    frame: it equals the length of any duplicate-free list of exactly those
    titles, so rows that share a title count once, and it never exceeds the
    number of rows. *)
Theorem movie_count_is_distinct_titles df ds yr :
  exists out dff h',
    recompute df ds yr = Ok (out, h')
    /\ filtered df ds yr = Ok dff
    /\ (movie_count out <= length dff)%nat
    /\ forall titles,
         NoDup titles ->
         (forall t, In t titles <-> exists row, In row dff /\ Title row = t) ->
         movie_count out = length titles.
Proof.
  destruct (recompute_run df ds yr) as (h' & R).
  eexists. exists (filter (keep ds yr) df), h'.
  split; [exact R|]. split; [apply filtered_eq|].
  cbn [movie_count outputs_of]. set (dff := filter (keep ds yr) df).
  unfold nunique.
  pose proof (uniq_NoDup String.eqb String.eqb_eq (map Title dff)) as ND.
  pose proof (uniq_In String.eqb String.eqb_eq) as UI.
  split.
  - rewrite <- (length_map Title dff). apply NoDup_incl_length; [exact ND|].
    intros t Ht. apply UI, Ht.
  - intros titles NDt Ht. apply Permutation_length.
    apply NoDup_Permutation; [exact ND|exact NDt|].
    intros t. rewrite UI, Ht, in_map_iff. split.
    + intros (row & E & Hrow). exists row. auto.
    + intros (row & Hrow & E). exists row. auto.
Qed.

(** X10.  The top-10 table has [min 10 n] rows for a filtered frame of [n]
    rows; with at most 10 rows nothing is left out: the table is the whole
    filtered frame, reordered. *)
Theorem top10_keeps_small_frames df ds yr :
  exists out dff h',
    recompute df ds yr = Ok (out, h')
    /\ filtered df ds yr = Ok dff
    /\ length (fig_top10 out) = Nat.min 10 (length dff)
    /\ ((length dff <= 10)%nat -> Permutation dff (fig_top10 out)).
Proof.
  destruct (recompute_run df ds yr) as (h' & R).
  eexists. exists (filter (keep ds yr) df), h'.
  split; [exact R|]. split; [apply filtered_eq|].
  unfold outputs_of. cbn [fig_top10]. set (dff := filter (keep ds yr) df).
  set (key := fun r : Row => cell_val (Worldwide r)).
  pose proof (sort_values_desc_perm key dff) as P.
  pose proof (Permutation_length P) as L.
  split.
  - rewrite length_firstn, L. reflexivity.
  - intros H. rewrite firstn_all2 by lia. exact P.
Qed.

Lemma fadd_fold_Fin qs : fold_right fadd (Fin 0) (map Fin qs) = Fin (Qsum qs).
Proof.
  induction qs as [|q qs IH]; simpl; [reflexivity|]. rewrite IH. reflexivity.
Qed.

Lemma count_not_zero n : Qeq_bool (inject_Z (Z.of_nat (S n))) 0 = false.
Proof.
  destruct (Qeq_bool (inject_Z (Z.of_nat (S n))) 0) eqn:E; [|reflexivity].
  apply Qeq_bool_iff in E. unfold Qeq, inject_Z in E. simpl in E. lia.
Qed.

(** X11.  The average ROI skips the rows whose ROI is NaN and divides by
    the number of rows it kept: when the other ROI values are the finite
    numbers [qs], the KPI is their sum over their number, and NaN when
    there is none. *)
Theorem avg_roi_skips_nan df ds yr qs :
  (exists dff, filtered df ds yr = Ok dff
               /\ dropna (map ROI dff) = map Fin qs) ->
  exists out h',
    recompute df ds yr = Ok (out, h')
    /\ avg_roi out
       = match qs with
         | [] => NaN
         | _ :: _ => Fin (Qsum qs / inject_Z (Z.of_nat (length qs)))
         end.
Proof.
  intros (dff & F & D). rewrite filtered_eq in F. injection F as <-.
  destruct (recompute_run df ds yr) as (h' & R).
  eexists. exists h'. split; [exact R|].
  cbn [avg_roi outputs_of]. unfold col_mean. rewrite D, fadd_fold_Fin, length_map.
  destruct qs as [|q qs]; [reflexivity|].
  unfold fdiv. cbn [length]. rewrite count_not_zero. reflexivity.
Qed.

Lemma avg_roi_skips_nan_witness :
  exists out h',
    recompute (prepare [movie "First" "A" 2012 100 300; no_date_movie]) None None
    = Ok (out, h')
    /\ avg_roi out = Fin (Qsum [(300 - 100) / 100] / inject_Z (Z.of_nat 1))%Q.
Proof.
  apply (avg_roi_skips_nan
           (prepare [movie "First" "A" 2012 100 300; no_date_movie]) None None
           [(300 - 100) / 100]%Q).
  eexists. split; reflexivity.
Defined.

Lemma fadd_fold_pos_inf c :
  Forall (fun x => isna x = false /\ x <> Inf true) c ->
  fold_right fadd (Fin 0) c
  = if existsb (fun x => match x with Inf false => true | _ => false end) c
    then Inf false
    else Fin (Qsum (cat_somes (map (fun x => match x with Fin q => Some q | _ => None end) c))).
Proof.
  induction 1 as [|x c [Hx1 Hx2] _ IH]; simpl; [reflexivity|].
  rewrite IH. destruct x as [|[|]|q]; simpl; try discriminate; try congruence.
  - destruct (existsb _ c); reflexivity.
  - destruct (existsb _ c); reflexivity.
Qed.

(** X12.  An infinite ROI is not skipped: if some filtered row has ROI
    +infinity and none has -infinity, the average ROI is +infinity. *)
Theorem avg_roi_infinite df ds yr :
  (exists dff, filtered df ds yr = Ok dff
               /\ (exists row, In row dff /\ ROI row = Inf false)
               /\ (forall row, In row dff -> ROI row <> Inf true)) ->
  exists out h',
    recompute df ds yr = Ok (out, h') /\ avg_roi out = Inf false.
Proof.
  intros (dff & F & (row & Hrow & Hinf) & Hneg).
  rewrite filtered_eq in F. injection F as <-.
  destruct (recompute_run df ds yr) as (h' & R).
  eexists. exists h'. split; [exact R|].
  cbn [avg_roi outputs_of]. unfold col_mean.
  set (c := dropna (map ROI (filter (keep ds yr) df))).
  assert (Hc : Forall (fun x => isna x = false /\ x <> Inf true) c).
  { apply Forall_forall. intros x Hx. apply filter_In in Hx.
    destruct Hx as [Hx Hn]. split; [apply negb_true_iff, Hn|].
    apply in_map_iff in Hx. destruct Hx as (r & <- & Hr). apply Hneg, Hr. }
  assert (Hi : In (Inf false) c).
  { apply filter_In. split; [|reflexivity].
    rewrite <- Hinf. apply in_map, Hrow. }
  rewrite (fadd_fold_pos_inf c Hc).
  assert (X : existsb (fun x => match x with Inf false => true | _ => false end) c
              = true).
  { apply existsb_exists. exists (Inf false). split; [exact Hi|reflexivity]. }
  rewrite X. destruct c as [|x c']; [destruct Hi|].
  cbn [length]. unfold fdiv, Qltb.
  assert (P : Qle_bool 0 (inject_Z (Z.of_nat (S (length c')))) = true).
  { apply Qle_bool_iff. unfold Qle, inject_Z. simpl. lia. }
  rewrite P. reflexivity.
Qed.

Lemma avg_roi_infinite_witness :
  exists out h',
    recompute (prepare [free_movie; movie "First" "A" 2012 100 300]) None None
    = Ok (out, h')
    /\ avg_roi out = Inf false.
Proof.
  apply (avg_roi_infinite
           (prepare [free_movie; movie "First" "A" 2012 100 300]) None None).
  eexists. split; [reflexivity|]. split.
  - exists (prepare_row free_movie). split; [left; reflexivity|reflexivity].
  - intros row [<-|[<-|[]]]; discriminate.
Defined.

(** ** The controls of the page *)

Lemma string_leb_trans a b c :
  String.leb a b = true -> String.leb b c = true -> String.leb a c = true.
Proof.
  unfold String.leb. revert b c.
  induction a as [|x a IH]; intros [|y b] [|z c]; simpl; try congruence.
  unfold Ascii.compare.
  destruct (N.compare_spec (Ascii.N_of_ascii x) (Ascii.N_of_ascii y)) as [E1|L1|G1];
    try congruence;
    destruct (N.compare_spec (Ascii.N_of_ascii y) (Ascii.N_of_ascii z)) as [E2|L2|G2];
    try congruence;
    destruct (N.compare_spec (Ascii.N_of_ascii x) (Ascii.N_of_ascii z)) as [E3|L3|G3];
    try congruence; try lia.
  apply IH.
Qed.

Lemma string_leb_total a b : String.leb a b = false -> String.leb b a = true.
Proof.
  intros H. destruct (String.leb_total a b) as [X|X]; [congruence|exact X].
Qed.

(** X13.  The distributor dropdown offers each distributor of the table
    exactly once, as label and as value, in increasing order; so every
    option matches at least one movie, and selecting all of them shows what
    the empty selection shows. *)
Theorem distributor_options_cover_table df :
  (forall o, In o (distributor_options df) -> fst o = snd o)
  /\ NoDup (map snd (distributor_options df))
  /\ StronglySorted (fun d d' => String.leb d d' = true)
       (map snd (distributor_options df))
  /\ (forall d, In d (map snd (distributor_options df))
                <-> exists row, In row df /\ Distributor row = d)
  /\ forall yr,
       filtered df (Some (map snd (distributor_options df))) yr
       = filtered df (Some []) yr.
Proof.
  unfold distributor_options.
  set (ds := uniq String.eqb (map Distributor df)).
  assert (V : map snd (map (fun d : string => (d, d)) (isort String.leb ds))
              = isort String.leb ds).
  { rewrite map_map. apply map_id. }
  rewrite V.
  assert (M : forall d, In d (isort String.leb ds)
                        <-> exists row, In row df /\ Distributor row = d).
  { intros d. split.
    - intros H. apply (Permutation_in _ (Permutation_sym (isort_perm _ _))) in H.
      apply (uniq_In String.eqb String.eqb_eq), in_map_iff in H.
      destruct H as (row & E & Hrow). exists row. auto.
    - intros (row & Hrow & E). apply (Permutation_in _ (isort_perm _ _)).
      apply (uniq_In String.eqb String.eqb_eq). rewrite <- E.
      apply in_map, Hrow. }
  split; [|split; [|split; [|split]]].
  - intros o Ho. apply in_map_iff in Ho. destruct Ho as (d & <- & _).
    reflexivity.
  - eapply Permutation_NoDup; [apply isort_perm|].
    apply uniq_NoDup, String.eqb_eq.
  - apply isort_sorted with (dom := fun _ => True).
    + apply string_leb_trans.
    + intros x y _ _. apply string_leb_total.
    + apply Forall_forall. intros; exact I.
  - exact M.
  - intros yr. apply covering_selection.
    intros row Hrow. apply M. exists row. auto.
Qed.

Lemma year_min_none c : year_min c = None <-> forall x, In x c -> x = None.
Proof.
  induction c as [|[y|] c IH]; simpl.
  - split; [intros _ x []|reflexivity].
  - split.
    + destruct (year_min c); discriminate.
    + intros H. discriminate (H (Some y) (or_introl eq_refl)).
  - rewrite IH. split.
    + intros H x [<-|Hx]; [reflexivity|apply H, Hx].
    + intros H x Hx. apply H. right. exact Hx.
Qed.

Lemma year_max_none c : year_max c = None <-> year_min c = None.
Proof.
  induction c as [|[y|] c IH]; simpl; [tauto| |exact IH].
  destruct (year_max c), (year_min c); split; discriminate.
Qed.

Lemma year_min_some c m :
  year_min c = Some m ->
  In (Some m) c /\ forall y, In (Some y) c -> m <= y.
Proof.
  revert m. induction c as [|[y|] c IH]; simpl; intros m H.
  - discriminate.
  - destruct (year_min c) as [m'|] eqn:E; injection H as <-.
    + destruct (IH m' eq_refl) as [Hin Hle]. split.
      * destruct (Z.min_spec y m') as [[_ ->]|[_ ->]]; [left; reflexivity|right; exact Hin].
      * intros y' [E'|Hy']; [injection E' as <-; lia|].
        specialize (Hle y' Hy'). lia.
    + split; [left; reflexivity|].
      intros y' [E'|Hy']; [injection E' as <-; lia|].
      apply (proj1 (year_min_none c) E) in Hy'. discriminate.
  - destruct (IH m H) as [Hin Hle]. split; [right; exact Hin|].
    intros y [E|Hy]; [discriminate|apply Hle, Hy].
Qed.

Lemma year_max_some c m :
  year_max c = Some m ->
  In (Some m) c /\ forall y, In (Some y) c -> y <= m.
Proof.
  revert m. induction c as [|[y|] c IH]; simpl; intros m H.
  - discriminate.
  - destruct (year_max c) as [m'|] eqn:E; injection H as <-.
    + destruct (IH m' eq_refl) as [Hin Hle]. split.
      * destruct (Z.max_spec y m') as [[_ ->]|[_ ->]]; [right; exact Hin|left; reflexivity].
      * intros y' [E'|Hy']; [injection E' as <-; lia|].
        specialize (Hle y' Hy'). lia.
    + split; [left; reflexivity|].
      intros y' [E'|Hy']; [injection E' as <-; lia|].
      apply year_max_none in E.
      apply (proj1 (year_min_none c) E) in Hy'. discriminate.
  - destruct (IH m H) as [Hin Hle]. split; [right; exact Hin|].
    intros y [E|Hy]; [discriminate|apply Hle, Hy].
Qed.

Lemma marks_of_fails ys : marks_of ys = ValueError <-> In None ys.
Proof.
  induction ys as [|[y|] ys IH]; simpl.
  - split; [discriminate|intros []].
  - destruct (marks_of ys); split.
    + discriminate.
    + intros [E|H]; [discriminate|]. apply IH in H. discriminate.
    + intros _. right. apply IH. reflexivity.
    + reflexivity.
  - split; [intros _; left; reflexivity|reflexivity].
Qed.

Lemma marks_of_built ys m :
  marks_of ys = Built m ->
  ys = map Some (map fst m) /\ forall p, In p m -> snd p = py_str (fst p).
Proof.
  revert m. induction ys as [|[y|] ys IH]; simpl; intros m H.
  - injection H as <-. split; [reflexivity|intros p []].
  - destruct (marks_of ys) as [m'|]; [|discriminate].
    injection H as <-. destruct (IH m' eq_refl) as [-> Hl]. split; [reflexivity|].
    intros p [<-|Hp]; [reflexivity|apply Hl, Hp].
  - discriminate.
Qed.

Lemma year_eqb_eq x y : year_eqb x y = true <-> x = y.
Proof.
  destruct x as [a|], y as [b|]; simpl; try (split; congruence).
  rewrite Z.eqb_eq. split; congruence.
Qed.

Lemma sorted_years ks :
  StronglySorted (fun x y => year_leb x y = true) (map Some ks) ->
  StronglySorted Z.le ks.
Proof.
  induction ks as [|k ks IH]; simpl; intros S; [constructor|].
  inversion S as [|? ? S' F]; subst. constructor; [apply IH, S'|].
  rewrite Forall_map in F. eapply Forall_impl; [|exact F].
  simpl. intros y. apply Z.leb_le.
Qed.

(** X14.  The year slider cannot be built, and the page with it, exactly
    when the table is empty or some row has no year: [int()] then meets a
    NaN and raises [ValueError]. *)
Theorem year_slider_fails_iff df :
  year_slider df = ValueError
  <-> df = [] \/ exists row, In row df /\ Year row = None.
Proof.
  unfold year_slider.
  set (years := map Year df).
  assert (N : In None (isort year_leb (uniq year_eqb years))
              <-> exists row, In row df /\ Year row = None).
  { split.
    - intros H. apply (Permutation_in _ (Permutation_sym (isort_perm _ _))) in H.
      apply (uniq_In year_eqb year_eqb_eq), in_map_iff in H.
      destruct H as (row & E & Hrow). exists row. auto.
    - intros (row & Hrow & E). apply (Permutation_in _ (isort_perm _ _)).
      apply (uniq_In year_eqb year_eqb_eq). rewrite <- E. apply in_map, Hrow. }
  destruct (year_min years) as [lo|] eqn:Emin.
  - destruct (year_max years) as [hi|] eqn:Emax.
    + simpl. destruct (marks_of _) as [m|] eqn:Em; simpl.
      * split; [discriminate|]. intros [->|H]; [discriminate|].
        apply N, marks_of_fails in H. congruence.
      * split; [|reflexivity]. intros _. right.
        apply N, marks_of_fails, Em.
    + apply year_max_none in Emax. congruence.
  - simpl. split; [|reflexivity]. intros _.
    destruct df as [|row df']; [left; reflexivity|right].
    exists row. split; [left; reflexivity|].
    apply (proj1 (year_min_none years) Emin). left. reflexivity.
Qed.

Lemma year_slider_inv df s :
  year_slider df = Built s ->
  exists lo hi m,
    year_min (map Year df) = Some lo
    /\ year_max (map Year df) = Some hi
    /\ marks_of (isort year_leb (uniq year_eqb (map Year df))) = Built m
    /\ s = {| slider_min := lo; slider_max := hi;
              slider_value := [lo; hi]; slider_marks := m |}.
Proof.
  unfold year_slider.
  destruct (year_min (map Year df)) as [lo|]; [|discriminate].
  destruct (year_max (map Year df)) as [hi|]; [|discriminate].
  simpl. destruct (marks_of _) as [m|]; [|discriminate].
  simpl. intros H. injection H as <-. exists lo, hi, m. auto.
Qed.

Lemma marks_need_years df m :
  marks_of (isort year_leb (uniq year_eqb (map Year df))) = Built m ->
  forall row, In row df -> Year row <> None.
Proof.
  intros Em row Hrow E.
  assert (F : marks_of (isort year_leb (uniq year_eqb (map Year df))) = ValueError).
  { apply marks_of_fails. apply (Permutation_in _ (isort_perm _ _)).
    apply (uniq_In year_eqb year_eqb_eq). rewrite <- E. apply in_map, Hrow. }
  congruence.
Qed.

Lemma year_slider_covers df s :
  year_slider df = Built s ->
  slider_value s = [slider_min s; slider_max s]
  /\ forall row, In row df ->
       exists y, Year row = Some y /\ slider_min s <= y <= slider_max s.
Proof.
  intros H. destruct (year_slider_inv df s H) as (lo & hi & m & Emin & Emax & Em & ->).
  split; [reflexivity|]. intros row Hrow. simpl.
  destruct (Year row) as [y|] eqn:E;
    [|destruct (marks_need_years df m Em row Hrow E)].
  exists y. split; [reflexivity|].
  assert (I : In (Some y) (map Year df)) by (rewrite <- E; apply in_map, Hrow).
  split; [apply (year_min_some _ _ Emin), I|apply (year_max_some _ _ Emax), I].
Qed.

(** X15.  When the slider is built, its initial value is its two ends; the
    ends are the smallest and the largest year of the table, each the year
    of some row; and the marks are the years of the table, once each, in
    increasing order, each labelled with its decimal writing. *)
Theorem year_slider_bounds df s :
  year_slider df = Built s ->
  slider_value s = [slider_min s; slider_max s]
  /\ (forall row, In row df ->
        exists y, Year row = Some y /\ slider_min s <= y <= slider_max s)
  /\ (exists row, In row df /\ Year row = Some (slider_min s))
  /\ (exists row, In row df /\ Year row = Some (slider_max s))
  /\ StronglySorted Z.lt (map fst (slider_marks s))
  /\ (forall y, In y (map fst (slider_marks s))
                <-> exists row, In row df /\ Year row = Some y)
  /\ (forall p, In p (slider_marks s) -> snd p = py_str (fst p)).
Proof.
  intros H.
  destruct (year_slider_covers df s H) as [V B].
  destruct (year_slider_inv df s H) as (lo & hi & m & Emin & Emax & Em & ->).
  pose proof (marks_need_years df m Em) as A.
  cbn [slider_value slider_min slider_max slider_marks] in *.
  apply year_min_some in Emin. destruct Emin as [Imin Lmin].
  apply year_max_some in Emax. destruct Emax as [Imax Lmax].
  apply marks_of_built in Em. destruct Em as [Ek Hl].
  assert (K : forall y, In y (map fst m)
                        <-> exists row, In row df /\ Year row = Some y).
  { intros y. split.
    - intros Hy.
      assert (I : In (Some y) (isort year_leb (uniq year_eqb (map Year df))))
        by (rewrite Ek; apply in_map, Hy).
      apply (Permutation_in _ (Permutation_sym (isort_perm year_leb _))) in I.
      apply (uniq_In year_eqb year_eqb_eq), in_map_iff in I.
      destruct I as (row & E & Hrow). exists row. auto.
    - intros (row & Hrow & E).
      assert (I : In (Some y) (isort year_leb (uniq year_eqb (map Year df)))).
      { apply (Permutation_in _ (isort_perm year_leb _)).
        apply (uniq_In year_eqb year_eqb_eq). rewrite <- E. apply in_map, Hrow. }
      rewrite Ek in I. apply in_map_iff in I.
      destruct I as (y' & E' & Hy'). congruence. }
  split; [reflexivity|]. split; [|split; [|split; [|split; [|split]]]].
  - exact B.
  - apply in_map_iff in Imin. destruct Imin as (row & E & Hrow). exists row. auto.
  - apply in_map_iff in Imax. destruct Imax as (row & E & Hrow). exists row. auto.
  - apply StronglySorted_le_lt.
    + apply sorted_years. rewrite <- Ek.
      apply isort_sorted with (dom := fun x => x <> None).
      * intros [x|] [y|] [z|]; simpl; try discriminate.
        rewrite !Z.leb_le. lia.
      * intros [x|] [y|] Dx Dy; simpl; try congruence.
        rewrite Z.leb_le, Z.leb_gt. lia.
      * apply Forall_forall. intros x Hx.
        apply (uniq_In year_eqb year_eqb_eq), in_map_iff in Hx.
        destruct Hx as (row & <- & Hrow). apply A, Hrow.
    + apply (NoDup_map_inv Some). rewrite <- Ek.
      eapply Permutation_NoDup; [apply isort_perm|].
      apply uniq_NoDup, year_eqb_eq.
  - exact K.
  - exact Hl.
Qed.

Lemma year_slider_bounds_witness :
  exists s,
    year_slider two_movies = Built s
    /\ slider_value s = [slider_min s; slider_max s]
    /\ map fst (slider_marks s) = [2012; 2015].
Proof.
  eexists. split; [reflexivity|]. split; [|reflexivity].
  apply (year_slider_bounds two_movies). reflexivity.
Defined.

(** X16.  The page opens on the whole table: with the dropdown's initial
    empty selection and the slider's initial value, the filter returns
    every row of [df], in order, and the first callback aggregates them
    all. *)
Theorem initial_view_is_whole_table df s :
  year_slider df = Built s ->
  filtered df (Some []) (Some (slider_value s)) = Ok df
  /\ exists out h',
       recompute df (Some []) (Some (slider_value s)) = Ok (out, h')
       /\ fig_scatter out = df.
Proof.
  intros H. destruct (year_slider_covers df s H) as (V & B).
  assert (E : filter (keep (Some []) (Some (slider_value s))) df = df).
  { rewrite V. rewrite (filter_ext_in _ (fun _ => true)); [apply filter_true|].
    intros row Hrow. destruct (B row Hrow) as (y & Hy & Hb).
    unfold keep, year_pass, dist_pass. simpl. apply year_between.
    exists y. auto. }
  split.
  - rewrite filtered_eq, E. reflexivity.
  - destruct (recompute_run df (Some []) (Some (slider_value s))) as (h' & R).
    eexists. exists h'. split; [exact R|]. simpl. exact E.
Qed.

Lemma initial_view_is_whole_table_witness :
  filtered two_movies (Some []) (Some [2012; 2015]) = Ok two_movies.
Proof.
  apply (initial_view_is_whole_table two_movies
           {| slider_min := 2012; slider_max := 2015;
              slider_value := [2012; 2015];
              slider_marks := [(2012, "2012"%string); (2015, "2015"%string)] |}).
  reflexivity.
Defined.

(** ** Charts against the filter *)

Lemma dist_pass_same ds r r' :
  Distributor r = Distributor r' -> dist_pass ds r = dist_pass ds r'.
Proof. unfold dist_pass. intros ->. reflexivity. Qed.

Lemma year_pass_same yr r r' :
  Year r = Year r' -> year_pass yr r = year_pass yr r'.
Proof. unfold year_pass. intros ->. reflexivity. Qed.

(** X17.  The rows behind a bar of the per-distributor chart are the rows
    the filter returns when that distributor alone is selected, the year
    range unchanged; there is at least one. *)
Theorem distributor_bar_is_single_selection df ds yr out h d s :
  recompute df ds yr = Ok (out, h) ->
  In (d, s) (fig_bar_dist out) ->
  exists dff,
    filtered df ds yr = Ok dff
    /\ filtered df (Some [d]) yr
       = Ok (filter (fun r => String.eqb d (Distributor r)) dff)
    /\ exists row, In row dff /\ Distributor row = d.
Proof.
  intros R Hd.
  destruct (recompute_run df ds yr) as (h0 & R0).
  rewrite R in R0. injection R0 as -> _.
  apply bar_dist_In in Hd. destruct Hd as [(row & Hrow & <-) _].
  exists (filter (keep ds yr) df). split; [apply filtered_eq|].
  split; [|exists row; auto].
  rewrite filtered_eq, filter_filter. f_equal.
  apply filter_ext. intros r. apply filter_In in Hrow. destruct Hrow as [_ Hk].
  unfold keep in *. apply andb_true_iff in Hk. destruct Hk as [Hd _].
  change (dist_pass (Some [Distributor row]) r)
    with (String.eqb (Distributor r) (Distributor row) || false).
  rewrite orb_false_r, (String.eqb_sym (Distributor r)).
  destruct (String.eqb (Distributor row) (Distributor r)) eqn:E.
  - apply String.eqb_eq in E.
    rewrite <- (dist_pass_same ds row r E), Hd. simpl. symmetry. apply andb_true_r.
  - simpl. symmetry. apply andb_false_r.
Qed.

Lemma distributor_bar_is_single_selection_witness :
  exists dff,
    filtered two_movies None None = Ok dff
    /\ filtered two_movies (Some ["B"%string]) None
       = Ok (filter (fun r => String.eqb "B" (Distributor r)) dff).
Proof.
  destruct (recompute_run two_movies None None) as (h & R).
  destruct (distributor_bar_is_single_selection two_movies None None _ h
              "B"%string 200%Q R) as (dff & F & E & _).
  - right. left. reflexivity.
  - exists dff. auto.
Defined.

(** X18.  The rows behind a point of the per-year chart are the rows the
    filter returns when the year range is narrowed to that year alone, the
    distributor selection unchanged; there is at least one. *)
Theorem year_point_is_single_year df ds yr out h y s :
  recompute df ds yr = Ok (out, h) ->
  In (y, s) (fig_line_year out) ->
  exists dff,
    filtered df ds yr = Ok dff
    /\ filtered df ds (Some [y; y])
       = Ok (filter (fun r => key_is Z.eqb y (Year r)) dff)
    /\ exists row, In row dff /\ Year row = Some y.
Proof.
  intros R Hy.
  destruct (recompute_run df ds yr) as (h0 & R0).
  rewrite R in R0. injection R0 as -> _.
  apply (groupby_sum_In Z.eqb Z.leb) in Hy; [|apply Z.eqb_eq].
  destruct Hy as [(row & Hrow & Ey) _].
  exists (filter (keep ds yr) df). split; [apply filtered_eq|].
  split; [|exists row; auto].
  rewrite filtered_eq, filter_filter. f_equal.
  apply filter_ext. intros r. apply filter_In in Hrow. destruct Hrow as [_ Hk].
  unfold keep in *. apply andb_true_iff in Hk. destruct Hk as [_ Hk].
  rewrite <- andb_assoc. f_equal.
  change (year_pass (Some [y; y]) r)
    with (year_ge (Year r) y && year_le (Year r) y).
  unfold key_is. destruct (Year r) as [v|] eqn:Ev; simpl.
  - destruct (Z.eqb_spec y v) as [<-|Hne].
    + rewrite (year_pass_same yr r row) by congruence.
      rewrite Hk, Z.leb_refl. reflexivity.
    + rewrite andb_false_r.
      destruct (Z.leb_spec y v), (Z.leb_spec v y); simpl; try reflexivity. lia.
  - symmetry. apply andb_false_r.
Qed.

Lemma year_point_is_single_year_witness :
  exists dff,
    filtered two_movies None None = Ok dff
    /\ filtered two_movies None (Some [2015; 2015])
       = Ok (filter (fun r => key_is Z.eqb 2015 (Year r)) dff).
Proof.
  destruct (recompute_run two_movies None None) as (h & R).
  destruct (year_point_is_single_year two_movies None None _ h 2015 200%Q R)
    as (dff & F & E & _).
  - right. left. reflexivity.
  - exists dff. auto.
Defined.
